(** * The CMU Pronouncing Dictionary engine ([cmudict_loader.py])

    A shallow embedding of the class [CMUDict]: the loader that builds the
    word -> pronunciations index and the queries over it, followed by the
    properties the specification states about them.

    Text.  A Python [str] is a sequence of code points, modelled as
    [list N].  The dictionary file is opened with [encoding='latin-1'], so
    every character that reaches the index is below 256.  [isspace] and the
    class [[012]] are modelled for every code point; [lower] and the regular
    expression class [\d] are modelled exactly on the Latin-1 block (code
    points below 256) and left as the identity, respectively as "no digit",
    above it.

    The index.  [self.pronunciations] is a [defaultdict(list)]; Python
    dictionaries iterate in insertion order and the rhyme and pattern scans
    stop early, so the index is an association list in insertion order.

    Effects.  The methods of [CMUDict] run in a small state-and-exception
    monad over the index: reading with [.get], [in], [.items()] or plain
    iteration leaves the state alone, whereas indexing a [defaultdict]
    inserts the missing key. *)

From Stdlib Require Import List NArith ZArith Bool Lia.
From Stdlib Require String Ascii.
Import ListNotations String.StringSyntax.

(** ** Python strings *)

Abbreviation char := N (only parsing).
Abbreviation str := (list N) (only parsing).

(** [u"cat"] is the Python literal ['cat'] (ASCII literals only). *)
Definition str_of_literal (x : String.string) : str :=
  map Ascii.N_of_ascii (String.list_ascii_of_string x).
Delimit Scope string_scope with string.
Notation "'u' x" := (str_of_literal x%string)
  (at level 1, x at level 0, format "'u' x").

Definition char_eqb : char -> char -> bool := N.eqb.

Fixpoint str_eqb (a b : str) : bool :=
  match a, b with
  | [], [] => true
  | x :: a', y :: b' => char_eqb x y && str_eqb a' b'
  | _, _ => false
  end.

Definition in_range (lo hi c : N) : bool := ((lo <=? c) && (c <=? hi))%N.

(** [str.isspace] on one character: the code points CPython's
    [_PyUnicode_IsWhitespace] accepts. *)
Definition isspace (c : char) : bool :=
  in_range 0x09 0x0D c || in_range 0x1C 0x20 c || (c =? 0x85)%N || (c =? 0xA0)%N
  || (c =? 0x1680)%N || in_range 0x2000 0x200A c || (c =? 0x2028)%N
  || (c =? 0x2029)%N || (c =? 0x202F)%N || (c =? 0x205F)%N || (c =? 0x3000)%N.

(** [str.lower] on one character, Latin-1 block: A-Z and the accented
    capitals 0xC0-0xDE (the multiplication sign 0xD7 apart) move up by 32. *)
Definition lower_char (c : char) : char :=
  if in_range 0x41 0x5A c || (in_range 0xC0 0xDE c && negb (c =? 0xD7)%N)
  then (c + 32)%N else c.

Definition lower (w : str) : str := map lower_char w.

(** The class [\d] of [re], Latin-1 block: the ten ASCII digits. *)
Definition isdigit (c : char) : bool := in_range 0x30 0x39 c.

(** The class [[012]] of [re], also the test [c in '012'] on one character. *)
Definition is_stress_digit (c : char) : bool :=
  (c =? 0x30)%N || (c =? 0x31)%N || (c =? 0x32)%N.

Fixpoint lstrip (w : str) : str :=
  match w with
  | [] => []
  | c :: w' => if isspace c then lstrip w' else w
  end.

Fixpoint rstrip (w : str) : str :=
  match w with
  | [] => []
  | c :: w' =>
      match rstrip w' with
      | [] => if isspace c then [] else [c]
      | r => c :: r
      end
  end.

(** [w.strip()] *)
Definition strip (w : str) : str := rstrip (lstrip w).

(** [w.split(sep)] for a one-character separator: the fields between the
    separators, never an empty list. *)
Fixpoint split_on (sep : char) (w : str) : list str :=
  match w with
  | [] => [[]]
  | c :: w' =>
      if char_eqb c sep then [] :: split_on sep w'
      else match split_on sep w' with
           | [] => [[c]]
           | f :: fs => (c :: f) :: fs
           end
  end.

Definition flush (tok : str) : list str :=
  match tok with [] => [] | _ => [tok] end.

(** [w.split()]: scan left to right, [tok] is the token being read. *)
Fixpoint split_from (tok : str) (w : str) : list str :=
  match w with
  | [] => flush tok
  | c :: w' =>
      if isspace c then flush tok ++ split_from [] w'
      else split_from (tok ++ [c]) w'
  end.

Definition split (w : str) : list str := split_from [] w.

(** [sep.join(items)] *)
Fixpoint join (sep : str) (items : list str) : str :=
  match items with
  | [] => []
  | [x] => x
  | x :: rest => x ++ sep ++ join sep rest
  end.

(** ** The regular expressions of the module *)

(** The longest run of [\d] at the head of [w] is skipped. *)
Fixpoint lstrip_digits (w : str) : str :=
  match w with
  | [] => []
  | c :: w' => if isdigit c then lstrip_digits w' else w
  end.

(** [re.search(r"[012]", p)] as a truth value: some character of [p] is in
    the class. *)
Fixpoint re_search_012 (p : str) : bool :=
  match p with
  | [] => false
  | c :: p' => if is_stress_digit c then true else re_search_012 p'
  end.

(** [re.sub(r"\d", "", p)]: every match (one digit) is replaced by nothing. *)
Fixpoint re_sub_digits (p : str) : str :=
  match p with
  | [] => []
  | c :: p' => if isdigit c then re_sub_digits p' else c :: re_sub_digits p'
  end.

(** The text position [$] stands for without [re.MULTILINE]: the end of the
    string, or just before a newline that ends the string. *)
Definition at_dollar (w : str) : bool :=
  match w with
  | [] => true
  | [c] => (c =? 0x0A)%N
  | _ => false
  end.

(** A match of [\(\d+\)$] that starts at the head of [w]: the text that
    follows the match (nothing, or the final newline).  The greedy [\d+]
    never has to give a digit back, since the next thing wanted is the
    closing parenthesis. *)
Definition variant_match (w : str) : option str :=
  match w with
  | c :: d :: w' =>
      if (c =? 0x28)%N && isdigit d then
        match lstrip_digits w' with
        | e :: tl => if (e =? 0x29)%N && at_dollar tl then Some tl else None
        | [] => None
        end
      else None
  | _ => None
  end.

(** [re.sub(r'\(\d+\)$', '', w)]: the leftmost match is cut out; what follows
    it is at most a newline, where the pattern cannot match again. *)
Fixpoint re_sub_variant (w : str) : str :=
  match w with
  | [] => []
  | c :: w' =>
      match variant_match w with
      | Some tl => tl
      | None => c :: re_sub_variant w'
      end
  end.

(** ** Pronunciations *)

Abbreviation phoneme := (list N) (only parsing).
Abbreviation pronunciation := (list (list N)) (only parsing).

(** The loop [for i in range(len(phonemes) - 1, -1, -1)] of
    [get_rhyming_part_from_phonemes], with [n] indices left to visit:
    it leaves [last_stress_idx] at [-1] or at the index where it broke out. *)
Fixpoint last_stress_scan (phonemes : pronunciation) (n : nat) : Z :=
  match n with
  | O => (-1)%Z
  | S i =>
      if re_search_012 (nth i phonemes []) then Z.of_nat i
      else last_stress_scan phonemes i
  end.

Definition get_rhyming_part_from_phonemes (phonemes : pronunciation)
  : option pronunciation :=
  let last_stress_idx := last_stress_scan phonemes (length phonemes) in
  if (last_stress_idx =? -1)%Z then None
  else Some (skipn (Z.to_nat last_stress_idx) phonemes).

(** [sum(1 for p in phonemes if re.search(r"[012]", p))] *)
Definition count_syllables_in_pronunciation (phonemes : pronunciation) : Z :=
  fold_left (fun acc p => if re_search_012 p then (acc + 1)%Z else acc)
            phonemes 0%Z.

(** ** The phoneme alphabet table *)

Definition ARPA_TO_IPA : list (str * str) :=
  [ (u"AA", [0x251]); (u"AE", [0xe6]); (u"AH", [0x28c]); (u"AO", [0x254]);
    (u"AW", [0x61; 0x28a]); (u"AY", [0x61; 0x26a]); (u"EH", [0x25b]);
    (u"ER", [0x25d]); (u"EY", [0x65; 0x26a]); (u"IH", [0x26a]);
    (u"IY", [0x69]); (u"OW", [0x6f; 0x28a]); (u"OY", [0x254; 0x26a]);
    (u"UH", [0x28a]); (u"UW", [0x75]); (u"AX", [0x259]); (u"AXR", [0x25a]);
    (u"IX", [0x268]); (u"EL", [0x6c; 0x329]); (u"EM", [0x6d; 0x329]);
    (u"EN", [0x6e; 0x329]); (u"B", [0x62]); (u"CH", [0x74; 0x283]);
    (u"D", [0x64]); (u"DH", [0xf0]); (u"DX", [0x27e]); (u"F", [0x66]);
    (u"G", [0x261]); (u"HH", [0x68]); (u"JH", [0x64; 0x292]); (u"K", [0x6b]);
    (u"L", [0x6c]); (u"M", [0x6d]); (u"N", [0x6e]); (u"NG", [0x14b]);
    (u"P", [0x70]); (u"R", [0x279]); (u"S", [0x73]); (u"SH", [0x283]);
    (u"T", [0x74]); (u"TH", [0x3b8]); (u"V", [0x76]); (u"W", [0x77]);
    (u"Y", [0x6a]); (u"Z", [0x7a]); (u"ZH", [0x292]) ]%N.

(** [table.get(key, default)] on a dictionary literal. *)
Fixpoint table_get (table : list (str * str)) (key default : str) : str :=
  match table with
  | [] => default
  | (k, v) :: rest => if str_eqb k key then v else table_get rest key default
  end.

(** The loop of [arpa_to_ipa]: one symbol appended per phoneme. *)
Fixpoint ipa_loop (phonemes : pronunciation) (ipa_symbols : list str)
  : list str :=
  match phonemes with
  | [] => ipa_symbols
  | phoneme :: rest =>
      let base := re_sub_digits phoneme in
      ipa_loop rest (ipa_symbols ++ [table_get ARPA_TO_IPA base (lower base)])
  end.

Definition arpa_to_ipa (phonemes : pronunciation) : str :=
  let ipa_symbols := ipa_loop phonemes [] in
  u"/" ++ join u" " ipa_symbols ++ u"/".

(** ** The index and the monad of the methods *)

Abbreviation index := (list (list N * list (list (list N)))) (only parsing).

(** [IndexError] is Python's.  [OutsideFragment] is no Python exception: it
    marks a search pattern written with [re] syntax that this embedding
    does not interpret (see [re_parse]). *)
Inductive exn := IndexError | OutsideFragment.

Inductive outcome (A : Type) :=
| Ret (a : A)
| Raise (e : exn).
Arguments Ret {A} a.
Arguments Raise {A} e.

Definition M (A : Type) := index -> outcome A * index.

Definition ret {A} (a : A) : M A := fun d => (Ret a, d).
Definition raise {A} (e : exn) : M A := fun d => (Raise e, d).
Definition bind {A B} (m : M A) (k : A -> M B) : M B :=
  fun d =>
    match m d with
    | (Ret a, d') => k a d'
    | (Raise e, d') => (Raise e, d')
    end.

Notation "x <- m ;; k" := (bind m (fun x => k))
  (at level 61, m at next level, right associativity).

Fixpoint assoc (k : str) (d : index) : option (list pronunciation) :=
  match d with
  | [] => None
  | (k', v) :: rest => if str_eqb k' k then Some v else assoc k rest
  end.

(** [self.pronunciations.get(k)] *)
Definition dict_get (k : str) : M (option (list pronunciation)) :=
  fun d => (Ret (assoc k d), d).

(** [k in self.pronunciations] *)
Definition dict_contains (k : str) : M bool :=
  fun d => (Ret (match assoc k d with Some _ => true | None => false end), d).

(** [self.pronunciations.items()] and iteration over the keys. *)
Definition dict_items : M index := fun d => (Ret d, d).
Definition dict_keys : M (list str) := fun d => (Ret (map fst d), d).

(** [self.pronunciations[k]] on the [defaultdict(list)]: a missing key is
    inserted, at the end, with a new empty list. *)
Definition dict_getitem (k : str) : M (list pronunciation) :=
  fun d =>
    match assoc k d with
    | Some v => (Ret v, d)
    | None => (Ret [], d ++ [(k, [])])
    end.

Fixpoint update (k : str) (f : list pronunciation -> list pronunciation)
  (d : index) : index :=
  match d with
  | [] => []
  | (k', v) :: rest =>
      if str_eqb k' k then (k', f v) :: rest else (k', v) :: update k f rest
  end.

(** [.append(phonemes)] on the list object stored under [k]. *)
Definition list_append (k : str) (phonemes : pronunciation) : M unit :=
  fun d => (Ret tt, update k (fun v => v ++ [phonemes]) d).


(** ** The loader *)

(** The body of the loop of [load_dictionary] for one line of the file. *)
Definition process_line (line : str) : M unit :=
  let line := strip (nth 0 (split_on 0x23 line) []) in
  match line with
  | [] => ret tt
  | _ =>
      let parts := split line in
      if (length parts <? 2)%nat then ret tt
      else
        let word := lower (nth 0 parts []) in
        let phonemes := skipn 1 parts in
        let word := re_sub_variant word in
        _ <- dict_getitem word ;;
        list_append word phonemes
  end.

Fixpoint load_lines (f : list str) : M unit :=
  match f with
  | [] => ret tt
  | line :: rest => _ <- process_line line ;; load_lines rest
  end.

(** [load_dictionary], given the lines the opened file yields. *)
Definition load_dictionary (f : list str) : M unit := load_lines f.

(** [CMUDict(dict_path)]: the index starts empty and is filled by the loader. *)
Definition CMUDict (f : list str) : index := snd (load_dictionary f []).

(** ** Rhymes *)

Definition tuple_eqb (a b : option pronunciation) : bool :=
  match a, b with
  | None, None => true
  | Some x, Some y =>
      (fix eqb (x y : pronunciation) : bool :=
         match x, y with
         | [], [] => true
         | p :: x', q :: y' => str_eqb p q && eqb x' y'
         | _, _ => false
         end) x y
  | _, _ => false
  end.

(** The inner loop [for other_pron in other_prons]: does it reach the
    branch [other_rhyme == rhyme_part] (after which it breaks)? *)
Fixpoint some_pron_rhymes (rhyme_part : pronunciation)
  (other_prons : list pronunciation) : bool :=
  match other_prons with
  | [] => false
  | other_pron :: rest =>
      let other_rhyme := get_rhyming_part_from_phonemes other_pron in
      if tuple_eqb other_rhyme (Some rhyme_part) then true
      else some_pron_rhymes rhyme_part rest
  end.

Definition mem (w : str) (seen : list str) : bool := existsb (str_eqb w) seen.

(** The outer loop [for other_word, other_prons in self.pronunciations.items()]
    with its [continue] and its [break]. *)
Fixpoint rhyme_loop (word : str) (rhyme_part : pronunciation) (max_results : Z)
  (items : index) (rhymes seen : list str) : list str :=
  match items with
  | [] => rhymes
  | (other_word, other_prons) :: rest =>
      if str_eqb other_word (lower word)
      then rhyme_loop word rhyme_part max_results rest rhymes seen
      else
        let '(rhymes, seen) :=
          if some_pron_rhymes rhyme_part other_prons
          then if mem other_word seen then (rhymes, seen)
               else (rhymes ++ [other_word], other_word :: seen)
          else (rhymes, seen) in
        if (Z.of_nat (length rhymes) >=? max_results)%Z then rhymes
        else rhyme_loop word rhyme_part max_results rest rhymes seen
  end.

Definition find_rhymes_by_phonemes (word : str) (phonemes : pronunciation)
  (max_results : Z) : M (list str) :=
  let rhyme_part := get_rhyming_part_from_phonemes phonemes in
  match rhyme_part with
  | None | Some [] => ret []
  | Some rhyme_part =>
      items <- dict_items ;;
      ret (rhyme_loop word rhyme_part max_results items [] [])
  end.

(** ** The query methods *)

Record record := {
  arpa : str;
  ipa : str;
  syllables : Z;
  rhymes : list str
}.

Fixpoint lookup_loop (word : str) (pronunciations : list pronunciation)
  (results : list record) : M (list record) :=
  match pronunciations with
  | [] => ret results
  | phonemes :: rest =>
      r <- find_rhymes_by_phonemes word phonemes 10 ;;
      lookup_loop word rest
        (results ++ [ {| arpa := join u" " phonemes;
                         ipa := arpa_to_ipa phonemes;
                         syllables := count_syllables_in_pronunciation phonemes;
                         rhymes := r |} ])
  end.

Definition lookup (word : str) : M (option (list record)) :=
  let word := strip (lower word) in
  pronunciations <- dict_get word ;;
  match pronunciations with
  | None | Some [] => ret None
  | Some pronunciations =>
      results <- lookup_loop word pronunciations [] ;;
      ret (Some results)
  end.

Definition count_syllables (word : str) : M (option Z) :=
  pronunciations <- dict_get (strip (lower word)) ;;
  match pronunciations with
  | None | Some [] => ret None
  | Some (phonemes :: _) => ret (Some (count_syllables_in_pronunciation phonemes))
  end.

Definition get_rhyming_part (word : str) : M (option str) :=
  pronunciations <- dict_get (strip (lower word)) ;;
  match pronunciations with
  | None | Some [] => ret None
  | Some (phonemes :: _) =>
      match get_rhyming_part_from_phonemes phonemes with
      | None | Some [] => ret None
      | Some rhyme_part => ret (Some (join u" " rhyme_part))
      end
  end.

Definition find_rhymes (word : str) (max_results : Z) : M (list str) :=
  pronunciations <- dict_get (strip (lower word)) ;;
  match pronunciations with
  | None | Some [] => ret []
  | Some (phonemes :: _) => find_rhymes_by_phonemes word phonemes max_results
  end.

(** [p[-1]]: an empty string has no last character. *)
Definition last_char (p : str) : M char :=
  match p with
  | [] => raise IndexError
  | c :: p' => ret (last p' c)
  end.

(** [[p[-1] for p in phonemes if p[-1] in '012']] *)
Fixpoint stress_loop (phonemes : pronunciation) (stress : list str)
  : M (list str) :=
  match phonemes with
  | [] => ret stress
  | p :: rest =>
      c <- last_char p ;;
      if is_stress_digit c
      then c' <- last_char p ;; stress_loop rest (stress ++ [[c']])
      else stress_loop rest stress
  end.

Definition get_stress_pattern (word : str) : M (option str) :=
  pronunciations <- dict_get (strip (lower word)) ;;
  match pronunciations with
  | None | Some [] => ret None
  | Some (phonemes :: _) =>
      stress <- stress_loop phonemes [] ;;
      ret (Some (join u" " stress))
  end.

Definition get_phonemes_readable (word : str) : M (option str) :=
  pronunciations <- dict_get (strip (lower word)) ;;
  match pronunciations with
  | None | Some [] => ret None
  | Some (phonemes :: _) => ret (Some (join u" " phonemes))
  end.

Definition word_exists (word : str) : M bool :=
  dict_contains (lower word).

(** ** Pattern search *)

(** [pattern.replace('*', '.*')] *)
Fixpoint replace_star (pattern : str) : str :=
  match pattern with
  | [] => []
  | c :: rest =>
      if (c =? 0x2A)%N then (0x2E :: 0x2A :: replace_star rest)%N
      else c :: replace_star rest
  end.

(** The fragment of [re] syntax interpreted here: a character that is not
    special stands for itself, [.] is any character but a newline, and [.*]
    is any run of such characters. *)
Inductive atom :=
| Lit (c : char)
| Dot
| DotStar.

(** The characters [re] gives a meaning to: [. ^ $ * + ? { } [ ] \ | ( )]. *)
Definition re_special (c : char) : bool :=
  existsb (N.eqb c)
    [0x2E; 0x5E; 0x24; 0x2A; 0x2B; 0x3F; 0x7B; 0x7D; 0x5B; 0x5D; 0x5C; 0x7C;
     0x28; 0x29]%N.

(** [re.compile] on the text between [^] and [$]; [None] when the text
    leaves the fragment (any special character other than [.] and the [*]
    that follows a [.]). *)
Fixpoint re_parse (p : str) : option (list atom) :=
  match p with
  | [] => Some []
  | c :: rest =>
      if (c =? 0x2E)%N then
        match rest with
        | c' :: rest' =>
            if (c' =? 0x2A)%N then option_map (cons DotStar) (re_parse rest')
            else option_map (cons Dot) (re_parse rest)
        | [] => Some [Dot]
        end
      else if re_special c then None
      else option_map (cons (Lit c)) (re_parse rest)
  end.

(** [regex.match(w)] for the compiled [^...$] under [re.IGNORECASE], as a
    truth value.  On Latin-1 text two characters are equal up to case when
    their lowercase forms are equal. *)
Fixpoint re_match (regex : list atom) (w : str) : bool :=
  match regex with
  | [] => at_dollar w
  | Lit c :: regex' =>
      match w with
      | x :: w' => char_eqb (lower_char x) (lower_char c) && re_match regex' w'
      | [] => false
      end
  | Dot :: regex' =>
      match w with
      | x :: w' => negb (x =? 0x0A)%N && re_match regex' w'
      | [] => false
      end
  | DotStar :: regex' =>
      (fix star (w : str) : bool :=
         re_match regex' w
         || match w with
            | x :: w' => negb (x =? 0x0A)%N && star w'
            | [] => false
            end) w
  end.

(** The loop [for word in self.pronunciations] with its [break]. *)
Fixpoint search_loop (regex : list atom) (max_results : Z) (keys : list str)
  (matches : list str) : list str :=
  match keys with
  | [] => matches
  | word :: rest =>
      if re_match regex word then
        let matches := matches ++ [word] in
        if (Z.of_nat (length matches) >=? max_results)%Z then matches
        else search_loop regex max_results rest matches
      else search_loop regex max_results rest matches
  end.

Definition search_by_pattern (pattern : str) (max_results : Z) : M (list str) :=
  let regex_pattern := replace_star pattern in
  match re_parse regex_pattern with
  | None => raise OutsideFragment
  | Some regex =>
      keys <- dict_keys ;;
      ret (search_loop regex max_results keys [])
  end.

(** A small dictionary file, used to run the methods. *)
Definition sample_file : list str :=
  [u"cat K AE1 T"; u"bat B AE1 T"; u"hat HH AE1 T  # a comment";
   u"dog D AA1 G"; u"read R EH1 D"; u"read(2) R IY1 D"; u""; u"lonely"].

Definition sample : index := CMUDict sample_file.

(** * The vocabulary of the specification *)

(** A token carries stress when it contains one of the characters 0, 1, 2. *)
Definition carries_stress (p : phoneme) : Prop :=
  exists c, In c p /\ (c = 0x30 \/ c = 0x31 \/ c = 0x32)%N.

Definition unstressed (q : phoneme) : Prop := ~ carries_stress q.

(** A method is read-only when it hands the index back as it got it. *)
Definition read_only {A} (m : M A) : Prop := forall d, snd (m d) = d.

(** ** Lines of the dictionary file *)

Definition blank (ws : str) : Prop := Forall (fun c => isspace c = true) ws.

Definition solid (t : str) : Prop :=
  t <> [] /\ Forall (fun c => isspace c = false) t.

(** [body] is [line] with everything from the first [#] onward removed. *)
Definition comment_stripped (line body : str) : Prop :=
  ~ In 0x23%N body /\ (line = body \/ exists rest, line = body ++ 0x23%N :: rest).

(** [toks] are the whitespace-separated tokens of a text, in order: blank
    stretches alternate with maximal stretches free of whitespace. *)
Inductive tokenizes : str -> list str -> Prop :=
| tokenizes_blank ws :
    blank ws -> tokenizes ws []
| tokenizes_token ws t rest toks :
    blank ws -> solid t ->
    (rest = [] \/ exists c rest', rest = c :: rest' /\ isspace c = true) ->
    tokenizes rest toks ->
    tokenizes (ws ++ t ++ rest) (t :: toks).

(** A variant marker: an opening parenthesis, one digit or more, a closing
    parenthesis. *)
Definition variant_marker (m : str) : Prop :=
  exists ds, ds <> [] /\ Forall (fun c => isdigit c = true) ds /\
             m = [0x28%N] ++ ds ++ [0x29%N].

Definition ends_in_marker (w : str) : Prop :=
  exists base m, variant_marker m /\ w = base ++ m.

(** [key] is [w] with its trailing variant marker, if it has one, removed. *)
Definition without_marker (w key : str) : Prop :=
  (exists m, variant_marker m /\ w = key ++ m) \/ (~ ends_in_marker w /\ key = w).

(** [d'] is [d] with [phonemes] appended, as one pronunciation, to the list
    of [key]; a new key goes last, the other entries stay as they were. *)
Definition appended (d : index) (key : str) (phonemes : pronunciation)
  (d' : index) : Prop :=
  assoc key d' =
    Some (match assoc key d with Some v => v | None => [] end ++ [phonemes])
  /\ (forall k, k <> key -> assoc k d' = assoc k d)
  /\ map fst d' =
       map fst d ++ match assoc key d with Some _ => [] | None => [key] end.

(** ** Well-formed indexes *)

Definition nonempty {A} (l : list A) : bool :=
  match l with [] => false | _ :: _ => true end.

(** A pronunciation has a token and no token is the empty string. *)
Definition pronunciation_ok (p : pronunciation) : bool :=
  nonempty p && forallb nonempty p.

(** Every key has a pronunciation and every pronunciation is well formed. *)
Definition index_ok (d : index) : bool :=
  forallb (fun e => nonempty (snd e) && forallb pronunciation_ok (snd e)) d.

(** A word that ends in two variant markers, one after the other. *)
Definition stacked_markers (w : str) : Prop :=
  exists base m1 m2,
    variant_marker m1 /\ variant_marker m2 /\ w = base ++ m1 ++ m2.

Definition entry_ok (v : list pronunciation) : bool :=
  nonempty v && forallb pronunciation_ok v.

(** The last character of a token is a stress digit. *)
Definition ends_in_stress_digit (t : phoneme) : bool :=
  match t with
  | [] => false
  | c :: t' => is_stress_digit (last t' c)
  end.

(** The last character of a token, as a one-character string. *)
Definition last_of (t : phoneme) : str :=
  match t with
  | [] => []
  | c :: t' => [last t' c]
  end.

(** A token contains at least one of the digit characters 0, 1, 2. *)
Definition stressed (t : phoneme) : bool := existsb is_stress_digit t.

(** ** The alphabet translation of a token *)

(** The token with all its digit characters deleted. *)
Definition base_symbol (token : phoneme) : str :=
  filter (fun c => negb (isdigit c)) token.

(** [sym] is the entry of the base symbol in the table, or the lowercase
    base symbol when the table has no entry for it. *)
Definition translates (token : phoneme) (sym : str) : Prop :=
  In (base_symbol token, sym) ARPA_TO_IPA
  \/ ((forall v, ~ In (base_symbol token, v) ARPA_TO_IPA)
      /\ sym = lower (base_symbol token)).

Fixpoint distinct (keys : list str) : bool :=
  match keys with
  | [] => true
  | k :: rest => negb (mem k rest) && distinct rest
  end.

(** ** Wildcard patterns, as the specification reads them *)

(** [*] stands for any run of characters; every other character of the
    pattern stands for itself, up to letter case; the whole word must be
    matched. *)
Fixpoint glob_match (pattern w : str) : bool :=
  match pattern with
  | [] => match w with [] => true | _ :: _ => false end
  | c :: pattern' =>
      if (c =? 0x2A)%N then
        (fix star (w : str) : bool :=
           glob_match pattern' w
           || match w with
              | _ :: w' => star w'
              | [] => false
              end) w
      else
        match w with
        | x :: w' => char_eqb (lower_char x) (lower_char c) && glob_match pattern' w'
        | [] => false
        end
  end.

(** A list is empty or its first element fails [P]. *)
Definition head_fails {A} (P : A -> Prop) (r : list A) : Prop :=
  match r with [] => True | x :: _ => ~ P x end.

(** Text of the Latin-1 block: every code point is below 256.  This is what
    decoding the dictionary file yields, and the range on which [lower],
    the class [\d] and the case-insensitive comparison of [re_match] are
    those of Python. *)
Definition latin1 (w : str) : bool := forallb (fun c => (c <? 256)%N) w.

(** * The phoneme type table *)

(** [table[k] = v] on a plain dictionary: the value of a key already there
    is replaced where it stands, a new key goes last. *)
Fixpoint dict_set (k v : str) (table : list (str * str)) : list (str * str) :=
  match table with
  | [] => [(k, v)]
  | (k', v') :: rest =>
      if str_eqb k' k then (k', v) :: rest else (k', v') :: dict_set k v rest
  end.

(** The loop of [load_phoneme_types] over the lines of the file. *)
Fixpoint phoneme_types_loop (f : list str) (phoneme_types : list (str * str))
  : list (str * str) :=
  match f with
  | [] => phoneme_types
  | line :: rest =>
      let line := strip line in
      match line with
      | [] => phoneme_types_loop rest phoneme_types
      | _ =>
          let parts := split_on 0x09 line in
          match parts with
          | [phoneme; ptype] =>
              phoneme_types_loop rest (dict_set phoneme ptype phoneme_types)
          | _ => phoneme_types_loop rest phoneme_types
          end
      end
  end.

Definition load_phoneme_types (f : list str) : list (str * str) :=
  phoneme_types_loop f [].

(** * Further vocabulary *)

(** What a line of the dictionary file contributes: nothing, or a key and a
    pronunciation (the tests and assignments of the loop body of
    [load_dictionary], without the store). *)
Definition parse_line (line : str) : option (str * pronunciation) :=
  let line := strip (nth 0 (split_on 0x23 line) []) in
  match line with
  | [] => None
  | _ =>
      let parts := split line in
      if (length parts <? 2)%nat then None
      else Some (re_sub_variant (lower (nth 0 parts [])), skipn 1 parts)
  end.

(** The entries of a file, in file order, and the pronunciations it holds
    for one key. *)
Fixpoint entries (f : list str) : list (str * pronunciation) :=
  match f with
  | [] => []
  | line :: rest =>
      match parse_line line with
      | Some e => e :: entries rest
      | None => entries rest
      end
  end.

Definition pronunciations_of (key : str) (f : list str) : list pronunciation :=
  map snd (filter (fun e => str_eqb (fst e) key) (entries f)).

(** A key as the loader stores it: lowercase, free of whitespace. *)
Definition normal_char (c : char) : bool :=
  char_eqb (lower_char c) c && negb (isspace c).

Definition normal_key (k : str) : bool := forallb normal_char k.

(** An entry of the index rhymes with [rhyme_part] for the word [word]: its
    key is not the lowercased word and one of its pronunciations has that
    rhyme key. *)
Definition rhymes_with (word : str) (rhyme_part : pronunciation)
  (e : str * list pronunciation) : bool :=
  negb (str_eqb (fst e) (lower word)) && some_pron_rhymes rhyme_part (snd e).

(** A pattern whose only special character is the wildcard [*]. *)
Definition plain_pattern (pattern : str) : bool :=
  forallb (fun c => (c =? 0x2A)%N || negb (re_special c)) pattern.

Definition no_newline (w : str) : bool := forallb (fun c => negb (c =? 0x0A)%N) w.

(** The keys of a sequence of entries in order of first appearance. *)
Definition first_appearances (keys seen : list str) : list str :=
  fold_left (fun acc k => if mem k acc then acc else acc ++ [k]) keys seen.

(** The list under a key after more pronunciations have come for it. *)
Definition merge_entry (old : option (list pronunciation))
  (new : list pronunciation) : option (list pronunciation) :=
  match new with
  | [] => old
  | _ :: _ => Some (match old with Some v => v | None => [] end ++ new)
  end.

(** The regular expression atom a character of a plain pattern becomes. *)
Definition atom_of (c : char) : atom :=
  if (c =? 0x2A)%N then DotStar else Lit c.

(** The rhymes [find_rhymes_by_phonemes] collects over the index [d]. *)
Definition rhymes_of (d : index) (word : str) (phonemes : pronunciation)
  (max_results : Z) : list str :=
  match get_rhyming_part_from_phonemes phonemes with
  | None | Some [] => []
  | Some rhyme_part => rhyme_loop word rhyme_part max_results d [] []
  end.

(** The record [lookup] makes for one pronunciation. *)
Definition record_of (d : index) (word : str) (phonemes : pronunciation)
  : record :=
  {| arpa := join u" " phonemes;
     ipa := arpa_to_ipa phonemes;
     syllables := count_syllables_in_pronunciation phonemes;
     rhymes := rhymes_of d word phonemes 10 |}.

(** What a line of the phoneme type file contributes: nothing, or a symbol
    and its type (the tests of the loop body of [load_phoneme_types]). *)
Definition parse_type_line (line : str) : option (str * str) :=
  let line := strip line in
  match line with
  | [] => None
  | _ =>
      match split_on 0x09 line with
      | [phoneme; ptype] => Some (phoneme, ptype)
      | _ => None
      end
  end.

Fixpoint type_entries (f : list str) : list (str * str) :=
  match f with
  | [] => []
  | line :: rest =>
      match parse_type_line line with
      | Some e => e :: type_entries rest
      | None => type_entries rest
      end
  end.

(** The type the last of the entries for [k] gives, if there is one. *)
Definition last_type (k : str) (es : list (str * str)) : option str :=
  option_map snd (find (fun e => str_eqb (fst e) k) (rev es)).

(** The whitespace-separated tokens of a line before its comment. *)
Definition line_tokens (line : str) : list str :=
  split (nth 0 (split_on 0x23 line) []).

(** A small phoneme type file: a repeated symbol, a blank line, a line
    without a tab and a line with two. *)
Definition sample_phones : list str :=
  [ [0x41; 0x41; 0x09; 0x76; 0x6F; 0x77; 0x65; 0x6C; 0x0A];
    [0x42; 0x09; 0x73; 0x74; 0x6F; 0x70; 0x0A];
    [0x0A];
    [0x43; 0x48; 0x20; 0x61; 0x66; 0x66; 0x0A];
    [0x44; 0x09; 0x73; 0x09; 0x74; 0x0A];
    [0x42; 0x09; 0x70; 0x6C; 0x6F; 0x73; 0x69; 0x76; 0x65; 0x0A] ]%N.

(** * Properties *)

(** ** Stress and the rhyme key *)


Lemma is_stress_digit_spec c :
  is_stress_digit c = true <-> (c = 0x30 \/ c = 0x31 \/ c = 0x32)%N.
Proof.
  unfold is_stress_digit.
  rewrite !orb_true_iff, !N.eqb_eq. tauto.
Qed.

Lemma re_search_012_spec p : re_search_012 p = true <-> carries_stress p.
Proof.
  unfold carries_stress. induction p as [|c p IH]; simpl.
  - split; [discriminate | intros (c & [] & _)].
  - destruct (is_stress_digit c) eqn:E.
    + split; [intros _ | reflexivity].
      exists c. split; [now left | now apply is_stress_digit_spec].
    + rewrite IH. split.
      * intros (x & Hin & Hx). exists x. split; [now right | exact Hx].
      * intros (x & [-> | Hin] & Hx).
        -- apply is_stress_digit_spec in Hx. congruence.
        -- now exists x.
Qed.

Lemma re_search_012_false p : re_search_012 p = false <-> ~ carries_stress p.
Proof.
  rewrite <- re_search_012_spec. destruct (re_search_012 p); intuition congruence.
Qed.

(** What the backward scan leaves in [last_stress_idx]. *)
Lemma last_stress_scan_none phonemes n :
  last_stress_scan phonemes n = (-1)%Z <->
  forall i, (i < n)%nat -> re_search_012 (nth i phonemes []) = false.
Proof.
  induction n as [|n IH]; simpl.
  - split; [intros _ i Hi; lia | reflexivity].
  - destruct (re_search_012 (nth n phonemes [])) eqn:E.
    + split; [lia | intros H; specialize (H n); rewrite E in H].
      discriminate H; lia.
    + rewrite IH. split; intros H i Hi.
      * destruct (Nat.eq_dec i n) as [-> | Hne]; [exact E | apply H; lia].
      * apply H; lia.
Qed.

Lemma last_stress_scan_some phonemes n :
  last_stress_scan phonemes n <> (-1)%Z ->
  exists i, last_stress_scan phonemes n = Z.of_nat i /\ (i < n)%nat /\
            re_search_012 (nth i phonemes []) = true /\
            forall j, (i < j < n)%nat -> re_search_012 (nth j phonemes []) = false.
Proof.
  induction n as [|n IH]; simpl; [congruence|].
  destruct (re_search_012 (nth n phonemes [])) eqn:E; intros H.
  - exists n. repeat split; auto; intros j Hj; lia.
  - destruct (IH H) as (i & Hi & Hlt & Hs & Hafter).
    exists i. repeat split; auto; try lia.
    intros j Hj. destruct (Nat.eq_dec j n) as [-> | Hne]; [exact E | apply Hafter; lia].
Qed.

Lemma last_stress_scan_at phonemes n k :
  (k < n)%nat ->
  re_search_012 (nth k phonemes []) = true ->
  (forall j, (k < j < n)%nat -> re_search_012 (nth j phonemes []) = false) ->
  last_stress_scan phonemes n = Z.of_nat k.
Proof.
  induction n as [|n IH]; intros Hk Hs Hafter; [lia|].
  cbn [last_stress_scan].
  destruct (Nat.eq_dec n k) as [-> | Hne].
  - now rewrite Hs.
  - rewrite (Hafter n) by lia. apply IH; auto; [lia|]. intros j Hj. apply Hafter. lia.
Qed.


Lemma Forall_unstressed_nth (l : pronunciation) :
  Forall unstressed l <->
  forall i, (i < length l)%nat -> re_search_012 (nth i l []) = false.
Proof.
  unfold unstressed. split.
  - intros H i Hi. apply re_search_012_false.
    rewrite Forall_forall in H. apply H, nth_In, Hi.
  - intros H. apply Forall_forall. intros q Hq.
    destruct (In_nth _ _ [] Hq) as (i & Hi & <-).
    apply re_search_012_false, H, Hi.
Qed.

Lemma skipn_prefix (before after : pronunciation) :
  skipn (length before) (before ++ after) = after.
Proof.
  induction before; simpl; auto.
Qed.

(** [C1] The rhyme key of a pronunciation is its suffix that starts at the
    rightmost token carrying stress (a token holding one of the characters
    0, 1, 2), and there is no rhyme key exactly when no token carries
    stress. *)
Theorem get_rhyming_part_from_phonemes_spec (phonemes : pronunciation) :
  (forall key,
      get_rhyming_part_from_phonemes phonemes = Some key <->
      exists before t after,
        phonemes = before ++ t :: after /\ carries_stress t /\
        Forall unstressed after /\ key = t :: after)
  /\ (get_rhyming_part_from_phonemes phonemes = None <->
      Forall unstressed phonemes).
Proof.
  unfold get_rhyming_part_from_phonemes. split.
  - intros key. split.
    + destruct (Z.eqb_spec (last_stress_scan phonemes (length phonemes)) (-1))
        as [E | E]; [discriminate|].
      destruct (last_stress_scan_some _ _ E) as (i & -> & Hlt & Hs & Hafter).
      rewrite Nat2Z.id. intros [= <-].
      pose proof (firstn_skipn i phonemes) as Hsplit.
      destruct (skipn i phonemes) as [|t after] eqn:Hsk.
      { apply (f_equal (@length _)) in Hsk. rewrite length_skipn in Hsk.
        simpl in Hsk. lia. }
      exists (firstn i phonemes), t, after. repeat split; auto.
      * apply re_search_012_spec.
        replace t with (nth 0 (skipn i phonemes) []) by now rewrite Hsk.
        now rewrite nth_skipn, Nat.add_0_r.
      * apply Forall_unstressed_nth. intros j Hj.
        replace (nth j after []) with (nth (S j) (skipn i phonemes) [])
          by now rewrite Hsk.
        rewrite nth_skipn. apply Hafter.
        apply (f_equal (@length _)) in Hsk. rewrite length_skipn in Hsk.
        simpl in Hsk. lia.
    + intros (before & t & after & -> & Ht & Hafter & ->).
      assert (Hsk : skipn (length before) (before ++ t :: after) = t :: after)
        by apply skipn_prefix.
      rewrite (last_stress_scan_at (before ++ t :: after) _ (length before)).
      * destruct (Z.eqb_spec (Z.of_nat (length before)) (-1)); [lia|].
        now rewrite Nat2Z.id, Hsk.
      * rewrite length_app. simpl. lia.
      * rewrite <- (Nat.add_0_r (length before)), <- nth_skipn, Hsk.
        now apply re_search_012_spec.
      * intros j Hj. rewrite length_app in Hj. simpl in Hj.
        replace j with (length before + S (j - S (length before)))%nat by lia.
        rewrite <- nth_skipn, Hsk. simpl.
        apply (proj1 (Forall_unstressed_nth after) Hafter). lia.
  - destruct (Z.eqb_spec (last_stress_scan phonemes (length phonemes)) (-1))
      as [E | E].
    + split; [intros _ | reflexivity].
      apply Forall_unstressed_nth, last_stress_scan_none, E.
    + split; [discriminate|]. intros H. exfalso. apply E.
      apply last_stress_scan_none, Forall_unstressed_nth, H.
Qed.

(** ** Equality tests *)

Lemma str_eqb_eq (a b : str) : str_eqb a b = true <-> a = b.
Proof.
  revert b. induction a as [|x a IH]; intros [|y b]; simpl;
    try (split; [discriminate | congruence]); [tauto|].
  unfold char_eqb. rewrite andb_true_iff, N.eqb_eq, IH.
  split; [intros [-> ->]; reflexivity | intros [= -> ->]; auto].
Qed.

Lemma str_eqb_refl (a : str) : str_eqb a a = true.
Proof. now apply str_eqb_eq. Qed.

Lemma str_eqb_neq (a b : str) : str_eqb a b = false <-> a <> b.
Proof.
  rewrite <- str_eqb_eq. destruct (str_eqb a b); intuition congruence.
Qed.

(** ** Methods that only read the index *)


Lemma read_only_ret {A} (a : A) : read_only (ret a).
Proof. intros d. reflexivity. Qed.

Lemma read_only_raise {A} (e : exn) : read_only (@raise A e).
Proof. intros d. reflexivity. Qed.

Lemma read_only_bind {A B} (m : M A) (k : A -> M B) :
  read_only m -> (forall a, read_only (k a)) -> read_only (bind m k).
Proof.
  intros Hm Hk d. unfold bind. specialize (Hm d).
  destruct (m d) as [[a | e] d']; simpl in *; subst; [apply Hk | reflexivity].
Qed.

Lemma read_only_dict_get k : read_only (dict_get k).
Proof. intros d. reflexivity. Qed.

Lemma read_only_dict_contains k : read_only (dict_contains k).
Proof. intros d. reflexivity. Qed.

Lemma read_only_dict_items : read_only dict_items.
Proof. intros d. reflexivity. Qed.

Lemma read_only_dict_keys : read_only dict_keys.
Proof. intros d. reflexivity. Qed.

Create HintDb read_only.
#[local] Hint Resolve read_only_ret read_only_raise read_only_dict_get
  read_only_dict_contains read_only_dict_items read_only_dict_keys : read_only.

Ltac read_only_step :=
  match goal with
  | |- read_only (bind _ _) => apply read_only_bind; [| intros ?]
  | |- read_only (match ?x with _ => _ end) => destruct x
  | |- read_only (if ?x then _ else _) => destruct x
  | |- read_only _ => solve [auto with read_only]
  end.

Lemma read_only_find_rhymes_by_phonemes word phonemes max_results :
  read_only (find_rhymes_by_phonemes word phonemes max_results).
Proof. unfold find_rhymes_by_phonemes. repeat read_only_step. Qed.

Lemma read_only_lookup_loop word pronunciations results :
  read_only (lookup_loop word pronunciations results).
Proof.
  revert results. induction pronunciations as [|p ps IH]; intros results; simpl.
  - auto with read_only.
  - apply read_only_bind; [apply read_only_find_rhymes_by_phonemes|].
    intros r. apply IH.
Qed.

Lemma read_only_last_char p : read_only (last_char p).
Proof. destruct p; simpl; auto with read_only. Qed.

Lemma read_only_stress_loop phonemes stress :
  read_only (stress_loop phonemes stress).
Proof.
  revert stress. induction phonemes as [|p ps IH]; intros stress; simpl.
  - auto with read_only.
  - apply read_only_bind; [apply read_only_last_char|]. intros c.
    destruct (is_stress_digit c); [|apply IH].
    apply read_only_bind; [apply read_only_last_char|]. intros c'. apply IH.
Qed.

#[local] Hint Resolve read_only_find_rhymes_by_phonemes read_only_lookup_loop
  read_only_stress_loop : read_only.

Lemma read_only_lookup word : read_only (lookup word).
Proof. unfold lookup. repeat read_only_step. Qed.

Lemma read_only_count_syllables word : read_only (count_syllables word).
Proof. unfold count_syllables. repeat read_only_step. Qed.

Lemma read_only_get_rhyming_part word : read_only (get_rhyming_part word).
Proof. unfold get_rhyming_part. repeat read_only_step. Qed.

Lemma read_only_find_rhymes word max_results :
  read_only (find_rhymes word max_results).
Proof. unfold find_rhymes. repeat read_only_step. Qed.

Lemma read_only_get_stress_pattern word : read_only (get_stress_pattern word).
Proof. unfold get_stress_pattern. repeat read_only_step. Qed.

Lemma read_only_get_phonemes_readable word :
  read_only (get_phonemes_readable word).
Proof. unfold get_phonemes_readable. repeat read_only_step. Qed.

Lemma read_only_word_exists word : read_only (word_exists word).
Proof. unfold word_exists. auto with read_only. Qed.

Lemma read_only_search_by_pattern pattern max_results :
  read_only (search_by_pattern pattern max_results).
Proof. unfold search_by_pattern. repeat read_only_step. Qed.

(** Indexing the [defaultdict] is not read-only: on a missing key it grows
    the index.  The queries never do it. *)
Example dict_getitem_inserts :
  snd (dict_getitem u"fish" []) = [(u"fish", [])].
Proof. reflexivity. Qed.

(** ** The string primitives *)

Lemma split_from_cons tok c w :
  split_from tok (c :: w) =
  if isspace c then flush tok ++ split_from [] w else split_from (tok ++ [c]) w.
Proof. reflexivity. Qed.

Lemma split_from_rstrip w : forall tok,
  split_from tok (rstrip w) = split_from tok w.
Proof.
  induction w as [|c w IH]; intros tok; [reflexivity|].
  cbn [rstrip]. rewrite (split_from_cons tok c w).
  destruct (rstrip w) as [|x r] eqn:E.
  - destruct (isspace c) eqn:Hc.
    + rewrite <- IH. cbn [split_from flush]. now rewrite app_nil_r.
    + rewrite split_from_cons, Hc. now rewrite <- IH.
  - rewrite split_from_cons. destruct (isspace c); now rewrite IH.
Qed.

Lemma split_lstrip w : split (lstrip w) = split w.
Proof.
  unfold split. induction w as [|c w IH]; [reflexivity|].
  cbn [lstrip split_from]. destruct (isspace c) eqn:Hc; [exact IH|].
  cbn [split_from]. now rewrite Hc.
Qed.

Lemma split_strip w : split (strip w) = split w.
Proof.
  unfold strip, split at 1. rewrite split_from_rstrip. apply split_lstrip.
Qed.

Lemma tokenizes_space c w toks :
  isspace c = true -> tokenizes w toks -> tokenizes (c :: w) toks.
Proof.
  intros Hc H. destruct H as [ws Hws | ws t rest toks Hws Ht Hrest H].
  - apply tokenizes_blank. now constructor.
  - apply (tokenizes_token (c :: ws)); auto. now constructor.
Qed.

Lemma tokenizes_head t rest toks :
  solid t ->
  (rest = [] \/ exists c rest', rest = c :: rest' /\ isspace c = true) ->
  tokenizes rest toks ->
  tokenizes (t ++ rest) (t :: toks).
Proof.
  intros Ht Hrest H.
  apply (tokenizes_token []); auto. constructor.
Qed.

Lemma split_from_tokenizes w : forall tok,
  Forall (fun c => isspace c = false) tok ->
  tokenizes (tok ++ w) (split_from tok w).
Proof.
  induction w as [|c w IH]; intros tok Htok.
  - cbn [split_from]. destruct tok as [|x tok]; cbn [flush].
    + apply tokenizes_blank. constructor.
    + apply tokenizes_head.
      * split; [discriminate | exact Htok].
      * now left.
      * apply tokenizes_blank. constructor.
  - cbn [split_from]. destruct (isspace c) eqn:Hc.
    + pose proof (tokenizes_space c _ _ Hc (IH [] (Forall_nil _))) as Hrest.
      destruct tok as [|x tok]; cbn [flush]; [exact Hrest|].
      apply tokenizes_head.
      * split; [discriminate | exact Htok].
      * right. now exists c, w.
      * exact Hrest.
    + replace (tok ++ c :: w) with ((tok ++ [c]) ++ w)
        by now rewrite <- app_assoc.
      apply IH. apply Forall_app. split; [exact Htok | now constructor].
Qed.

Lemma split_tokenizes w : tokenizes w (split w).
Proof. apply (split_from_tokenizes w []). constructor. Qed.

Lemma tokenizes_solid w toks : tokenizes w toks -> Forall solid toks.
Proof. induction 1; constructor; auto. Qed.

Lemma split_on_first sep w :
  let body := nth 0 (split_on sep w) [] in
  ~ In sep body /\ (w = body \/ exists rest, w = body ++ sep :: rest).
Proof.
  induction w as [|c w IH]; cbn [split_on].
  - split; [intros [] | now left].
  - unfold char_eqb. destruct (N.eqb_spec c sep) as [-> | Hne].
    + split; [intros [] | right; now exists w].
    + cbn zeta in IH. destruct IH as [Hnot Hsplit].
      destruct (split_on sep w) as [|f fs]; cbn [nth] in *.
      * split; [intros [E | []]; congruence|].
        destruct Hsplit as [-> | (rest & ->)]; [now left | right; now exists rest].
      * split; [intros [E | Hin]; [congruence | now apply Hnot]|].
        destruct Hsplit as [-> | (rest & ->)]; [now left | right; now exists rest].
Qed.

Lemma comment_stripped_split_on line :
  comment_stripped line (nth 0 (split_on 0x23 line) []).
Proof. apply (split_on_first 0x23%N line). Qed.

(** ** The variant marker *)

Lemma lstrip_digits_split w :
  exists ds, Forall (fun c => isdigit c = true) ds /\ w = ds ++ lstrip_digits w.
Proof.
  induction w as [|c w (ds & Hds & IH)]; [now exists []|].
  cbn [lstrip_digits]. destruct (isdigit c) eqn:Hc.
  - exists (c :: ds). split; [now constructor | simpl; now f_equal].
  - now exists [].
Qed.

Lemma lstrip_digits_run ds rest :
  Forall (fun c => isdigit c = true) ds ->
  match rest with [] => True | c :: _ => isdigit c = false end ->
  lstrip_digits (ds ++ rest) = rest.
Proof.
  intros Hds Hrest. induction Hds as [|d ds Hd _ IH]; simpl.
  - destruct rest as [|c rest]; [reflexivity | simpl; now rewrite Hrest].
  - now rewrite Hd.
Qed.

Lemma at_dollar_no_newline tl :
  at_dollar tl = true -> ~ In 0x0A%N tl -> tl = [].
Proof.
  destruct tl as [|c [|c' tl]]; simpl; try discriminate; auto.
  intros E H. apply N.eqb_eq in E. subst. exfalso. apply H. now left.
Qed.

Lemma variant_match_sound w tl :
  variant_match w = Some tl ->
  exists m, variant_marker m /\ w = m ++ tl /\ at_dollar tl = true.
Proof.
  unfold variant_match. destruct w as [|c [|d w]]; try discriminate.
  destruct (N.eqb_spec c 0x28) as [-> | _]; [|discriminate]. cbn [andb].
  destruct (isdigit d) eqn:Hd; [|discriminate].
  destruct (lstrip_digits_split w) as (ds & Hds & Hw).
  destruct (lstrip_digits w) as [|e tl']; [discriminate|].
  destruct (N.eqb_spec e 0x29) as [-> | _]; [|discriminate]. cbn [andb].
  destruct (at_dollar tl') eqn:Hend; [|discriminate]. intros [= <-].
  exists ([0x28%N] ++ (d :: ds) ++ [0x29%N]). split; [|split; [|exact Hend]].
  - exists (d :: ds). repeat split; [discriminate | now constructor].
  - rewrite Hw. simpl. now rewrite <- app_assoc.
Qed.

Lemma variant_match_complete m :
  variant_marker m -> variant_match m = Some [].
Proof.
  intros (ds & Hne & Hds & ->). destruct ds as [|d ds]; [congruence|].
  inversion Hds as [|? ? Hd Hds']; subst.
  cbn [variant_match app]. rewrite Hd. cbn [N.eqb Pos.eqb andb].
  now rewrite (lstrip_digits_run ds [0x29%N] Hds').
Qed.

Lemma re_sub_variant_spec w :
  ~ In 0x0A%N w -> without_marker w (re_sub_variant w).
Proof.
  induction w as [|c w IH]; intros Hnl.
  - right. split; [|reflexivity].
    intros (base & m & (ds & _ & _ & ->) & E). now destruct base.
  - cbn [re_sub_variant]. destruct (variant_match (c :: w)) as [tl|] eqn:E.
    + apply variant_match_sound in E. destruct E as (m & Hm & Hw & Hend).
      assert (tl = []) as ->.
      { apply at_dollar_no_newline; auto. intros H. apply Hnl. rewrite Hw.
        apply in_or_app. now right. }
      left. exists m. split; [exact Hm|]. now rewrite Hw, app_nil_r.
    + destruct IH as [(m & Hm & Hw) | (Hno & Hkey)].
      * intros H. apply Hnl. now right.
      * left. exists m. split; [exact Hm|]. simpl. now f_equal.
      * right. split; [|now f_equal].
        intros ([|b base] & m & Hm & Hw).
        -- simpl in Hw. rewrite Hw, (variant_match_complete m Hm) in E. discriminate.
        -- injection Hw as -> Hw. apply Hno. now exists base, m.
Qed.

(** ** Character classes *)

Ltac cmp_cases :=
  repeat match goal with
         | |- context [N.leb ?a ?b] => destruct (N.leb_spec a b); try lia
         | |- context [N.eqb ?a ?b] => destruct (N.eqb_spec a b); try lia
         end.

(** The characters [lower_char] moves. *)
Lemma lower_char_moves c :
  lower_char c <> c ->
  lower_char c = (c + 32)%N /\
  ((0x41 <= c <= 0x5A)%N \/ ((0xC0 <= c <= 0xDE)%N /\ c <> 0xD7%N)).
Proof.
  unfold lower_char, in_range. cmp_cases; cbn [andb orb negb]; intros Hmoved;
    try congruence; split; auto; lia.
Qed.

Lemma lower_char_newline c : lower_char c = 0x0A%N -> c = 0x0A%N.
Proof.
  intros H. destruct (N.eq_dec (lower_char c) c) as [E | E]; [congruence|].
  apply lower_char_moves in E. lia.
Qed.

Lemma lower_char_fixed c :
  ~ (0x41 <= c <= 0x5A)%N -> ~ (0xC0 <= c <= 0xDE)%N -> lower_char c = c.
Proof.
  intros H1 H2. destruct (N.eq_dec (lower_char c) c) as [E | E]; [exact E|].
  apply lower_char_moves in E. lia.
Qed.

Lemma lower_char_idempotent c : lower_char (lower_char c) = lower_char c.
Proof.
  destruct (N.eq_dec (lower_char c) c) as [E | E]; [now rewrite E|].
  apply lower_char_moves in E. destruct E as [-> E].
  apply lower_char_fixed; lia.
Qed.

Lemma isspace_letter c :
  (0x41 <= c)%N -> (c <= 0xFF)%N -> c <> 0x85%N -> c <> 0xA0%N ->
  isspace c = false.
Proof.
  intros Hlo Hhi H85 HA0. unfold isspace, in_range. now cmp_cases.
Qed.

Lemma isspace_lower_char c : isspace (lower_char c) = isspace c.
Proof.
  destruct (N.eq_dec (lower_char c) c) as [E | E]; [now rewrite E|].
  apply lower_char_moves in E. destruct E as [-> E].
  rewrite !isspace_letter; auto; lia.
Qed.

Lemma solid_lower_no_newline t : solid t -> ~ In 0x0A%N (lower t).
Proof.
  intros [_ Ht] Hin. unfold lower in Hin. apply in_map_iff in Hin.
  destruct Hin as (c & Hc & Hin). apply lower_char_newline in Hc. subst c.
  rewrite Forall_forall in Ht. specialize (Ht _ Hin). discriminate Ht.
Qed.

(** ** Updates of the index *)

Lemma assoc_update_same k f d v :
  assoc k d = Some v -> assoc k (update k f d) = Some (f v).
Proof.
  induction d as [|[k' v'] d IH]; simpl; [discriminate|].
  destruct (str_eqb k' k) eqn:E; simpl; rewrite E; [congruence | exact IH].
Qed.

Lemma assoc_update_other k k' f d :
  k' <> k -> assoc k' (update k f d) = assoc k' d.
Proof.
  intros Hne. induction d as [|[k0 v0] d IH]; simpl; [reflexivity|].
  destruct (str_eqb k0 k) eqn:E; simpl.
  - apply str_eqb_eq in E. subst k0.
    now rewrite (proj2 (str_eqb_neq k k')) by congruence.
  - now rewrite IH.
Qed.

Lemma keys_update k f d : map fst (update k f d) = map fst d.
Proof.
  induction d as [|[k0 v0] d IH]; simpl; [reflexivity|].
  destruct (str_eqb k0 k); simpl; now rewrite ?IH.
Qed.

Lemma assoc_app k d d' :
  assoc k (d ++ d') = match assoc k d with Some v => Some v | None => assoc k d' end.
Proof.
  induction d as [|[k0 v0] d IH]; simpl; [reflexivity|].
  now destruct (str_eqb k0 k).
Qed.

(** The two steps of [self.pronunciations[word].append(phonemes)]. *)
Lemma getitem_append_appended key phonemes d :
  appended d key phonemes
    (snd ((_ <- dict_getitem key ;; list_append key phonemes) d)).
Proof.
  unfold appended, bind, dict_getitem, list_append.
  destruct (assoc key d) as [v|] eqn:E; cbn [snd].
  - repeat split.
    + exact (assoc_update_same key (fun v => v ++ [phonemes]) d v E).
    + intros k Hk. now apply assoc_update_other.
    + now rewrite keys_update, app_nil_r.
  - assert (Hnew : assoc key (d ++ [(key, [])]) = Some []).
    { rewrite assoc_app, E. simpl. now rewrite str_eqb_refl. }
    repeat split.
    + exact (assoc_update_same key (fun v => v ++ [phonemes]) _ [] Hnew).
    + intros k Hk. rewrite assoc_update_other by exact Hk.
      rewrite assoc_app. destruct (assoc k d); [reflexivity|]. simpl.
      now rewrite (proj2 (str_eqb_neq key k)) by congruence.
    + now rewrite keys_update, map_app.
Qed.

Lemma without_marker_leaves_marker w key :
  without_marker w key -> ends_in_marker key -> stacked_markers w.
Proof.
  intros [(m & Hm & ->) | (Hno & ->)] Hkey; [|contradiction].
  destruct Hkey as (base & m1 & Hm1 & ->).
  exists base, m1, m. now rewrite <- app_assoc.
Qed.

(** ** The loader, line by line *)

(** [C6] What the loader does with one line.  The comment (from the first
    [#]) is dropped and the rest is split into its whitespace-separated
    tokens; with fewer than two tokens (an empty or blank rest included)
    the index is left as it is; otherwise the key is the lowercased first
    token without its trailing variant marker, and the remaining tokens, in
    their order and case, are appended as one pronunciation to the list of
    that key.  Exactly one marker is removed, so the key still ends in a
    marker only when the first token ended in two of them. *)
Theorem process_line_spec (line : str) (d : index) :
  exists body toks,
    comment_stripped line body /\ tokenizes body toks /\
    match toks with
    | w :: p :: ps =>
        exists key,
          without_marker (lower w) key /\
          appended d key (p :: ps) (snd (process_line line d)) /\
          (ends_in_marker key -> stacked_markers (lower w))
    | _ => snd (process_line line d) = d
    end.
Proof.
  set (body := nth 0 (split_on 0x23 line) []).
  exists body, (split body). split; [apply comment_stripped_split_on|].
  split; [apply split_tokenizes|].
  pose proof (tokenizes_solid _ _ (split_tokenizes body)) as Hsolid.
  unfold process_line. fold body. rewrite split_strip.
  destruct (strip body) as [|c s] eqn:Hstrip.
  - rewrite <- (split_strip body), Hstrip. reflexivity.
  - destruct (split body) as [|w [|p ps]]; try reflexivity.
    cbn [length Nat.ltb Nat.leb nth skipn].
    assert (Hkey : without_marker (lower w) (re_sub_variant (lower w))).
    { apply re_sub_variant_spec, solid_lower_no_newline.
      now inversion Hsolid. }
    exists (re_sub_variant (lower w)). split; [exact Hkey|]. split.
    + apply getitem_append_appended.
    + now apply without_marker_leaves_marker.
Qed.

(** ** The descriptions above determine what they describe *)

Lemma span_unique {A} (P : A -> Prop) (l1 l2 r1 r2 : list A) :
  Forall P l1 -> Forall P l2 -> head_fails P r1 -> head_fails P r2 ->
  l1 ++ r1 = l2 ++ r2 -> l1 = l2 /\ r1 = r2.
Proof.
  intros H1. revert l2. induction H1 as [|x l1 Hx _ IH]; intros l2 H2 Hr1 Hr2 E.
  - destruct H2 as [|y l2 Hy _]; [now split|].
    simpl in E. subst r1. simpl in Hr1. contradiction.
  - destruct H2 as [|y l2 Hy H2].
    + simpl in E. subst r2. simpl in Hr2. contradiction.
    + simpl in E. injection E as -> E.
      destruct (IH l2 H2 Hr1 Hr2 E) as [-> ->]. now split.
Qed.

Lemma solid_head_not_space t rest :
  solid t -> head_fails (fun c => isspace c = true) (t ++ rest).
Proof.
  intros [Hne Ht]. destruct t as [|c t]; [congruence|]. simpl.
  inversion Ht; subst. congruence.
Qed.

Lemma rest_head_space rest :
  (rest = [] \/ exists c rest', rest = c :: rest' /\ isspace c = true) ->
  head_fails (fun c => isspace c = false) rest.
Proof.
  intros [-> | (c & rest' & -> & Hc)]; simpl; [exact I | congruence].
Qed.

Lemma tokenizes_unique w toks1 toks2 :
  tokenizes w toks1 -> tokenizes w toks2 -> toks1 = toks2.
Proof.
  intros H1. revert toks2.
  induction H1 as [ws Hws | ws t rest toks Hws Ht Hrest H1 IH]; intros toks2 H2.
  - inversion H2 as [ws' _ | ws' t' rest' toks' Hws' Ht' Hrest' H' E]; subst;
      [reflexivity|].
    exfalso. unfold blank in Hws. rewrite !Forall_app in Hws.
    destruct Hws as (_ & Hbad & _). destruct Ht' as [Hne Hsolid].
    destruct t' as [|c t']; [congruence|].
    inversion Hbad; inversion Hsolid; subst. congruence.
  - inversion H2 as [ws' Hws' E | ws' t' rest' toks' Hws' Ht' Hrest' H' E]; subst.
    + exfalso. unfold blank in Hws'. rewrite !Forall_app in Hws'.
      destruct Hws' as (_ & Hbad & _). destruct Ht as [Hne Hsolid].
      destruct t as [|c t]; [congruence|].
      inversion Hbad; inversion Hsolid; subst. congruence.
    + destruct (span_unique _ ws' ws _ _ Hws' Hws
                  (solid_head_not_space t' rest' Ht')
                  (solid_head_not_space t rest Ht) E) as [-> E'].
      destruct (span_unique _ t' t _ _ (proj2 Ht') (proj2 Ht)
                  (rest_head_space _ Hrest') (rest_head_space _ Hrest) E')
        as [-> ->].
      f_equal. now apply IH.
Qed.

Lemma comment_stripped_unique line body1 body2 :
  comment_stripped line body1 -> comment_stripped line body2 -> body1 = body2.
Proof.
  intros [Hn1 H1] [Hn2 H2].
  assert (Hspan : forall body, ~ In 0x23%N body ->
                               Forall (fun c => c <> 0x23%N) body).
  { intros body Hn. apply Forall_forall. intros c Hc ->. now apply Hn. }
  assert (Hcut : forall body, (line = body \/ exists rest, line = body ++ 0x23%N :: rest) ->
            exists r, line = body ++ r /\ head_fails (fun c => c <> 0x23%N) r).
  { intros body [-> | (rest & ->)].
    - exists []. now rewrite app_nil_r.
    - exists (0x23%N :: rest). split; [reflexivity | simpl; congruence]. }
  destruct (Hcut _ H1) as (r1 & E1 & Hr1), (Hcut _ H2) as (r2 & E2 & Hr2).
  rewrite E1 in E2.
  now destruct (span_unique _ _ _ _ _ (Hspan _ Hn1) (Hspan _ Hn2) Hr1 Hr2 E2).
Qed.

Lemma marker_suffix_unique key1 key2 m1 m2 :
  variant_marker m1 -> variant_marker m2 ->
  key1 ++ m1 = key2 ++ m2 -> key1 = key2.
Proof.
  intros (ds1 & _ & Hds1 & ->) (ds2 & _ & Hds2 & ->) E.
  apply (f_equal (@rev _)) in E. rewrite !rev_app_distr in E. simpl in E.
  rewrite <- !app_assoc in E. simpl in E. injection E as E.
  assert (Hrev : forall ds, Forall (fun c => isdigit c = true) ds ->
                            Forall (fun c => isdigit c = true) (rev ds)).
  { intros ds H. apply Forall_forall. intros c Hc. apply in_rev in Hc.
    rewrite Forall_forall in H. now apply H. }
  assert (Hhead : forall key, head_fails (fun c => isdigit c = true)
                                        (0x28%N :: rev key))
    by (intros key; simpl; discriminate).
  destruct (span_unique _ _ _ _ _ (Hrev _ Hds1) (Hrev _ Hds2)
              (Hhead key1) (Hhead key2) E) as [_ E'].
  injection E' as E'. apply (f_equal (@rev _)) in E'.
  now rewrite !rev_involutive in E'.
Qed.

Lemma without_marker_unique w key1 key2 :
  without_marker w key1 -> without_marker w key2 -> key1 = key2.
Proof.
  intros [(m1 & Hm1 & E1) | (Hno1 & ->)] [(m2 & Hm2 & E2) | (Hno2 & ->)].
  - rewrite E1 in E2. now apply (marker_suffix_unique key1 key2 m1 m2).
  - exfalso. apply Hno2. now exists key1, m1.
  - exfalso. apply Hno1. now exists key2, m2.
  - reflexivity.
Qed.

(** ** The loader builds well-formed indexes *)

Lemma index_ok_entry_ok d :
  index_ok d = forallb (fun e => entry_ok (snd e)) d.
Proof. reflexivity. Qed.

Lemma index_ok_update k f d :
  index_ok d = true ->
  (forall v, entry_ok v = true -> entry_ok (f v) = true) ->
  index_ok (update k f d) = true.
Proof.
  intros Hd Hf. rewrite index_ok_entry_ok in *.
  induction d as [|[k0 v0] d IH]; simpl in *; [reflexivity|].
  apply andb_true_iff in Hd. destruct Hd as [Hv Hd].
  destruct (str_eqb k0 k); simpl; apply andb_true_iff; auto.
Qed.

Lemma update_new k f d :
  assoc k d = None -> update k f (d ++ [(k, [])]) = d ++ [(k, f [])].
Proof.
  induction d as [|[k0 v0] d IH]; simpl.
  - now rewrite str_eqb_refl.
  - destruct (str_eqb k0 k); [discriminate|]. intros H. now rewrite IH.
Qed.

Lemma entry_ok_append v p :
  forallb pronunciation_ok v = true -> pronunciation_ok p = true ->
  entry_ok (v ++ [p]) = true.
Proof.
  intros Hv Hp. unfold entry_ok. rewrite forallb_app, Hv. simpl. rewrite Hp.
  now destruct v.
Qed.

Lemma index_ok_appended key phonemes d :
  index_ok d = true -> pronunciation_ok phonemes = true ->
  index_ok (snd ((_ <- dict_getitem key ;; list_append key phonemes) d)) = true.
Proof.
  intros Hd Hp. unfold bind, dict_getitem, list_append.
  destruct (assoc key d) as [v|] eqn:E; cbn [snd].
  - apply index_ok_update; [exact Hd|]. intros v0 Hv0.
    apply entry_ok_append; [|exact Hp].
    unfold entry_ok in Hv0. now apply andb_true_iff in Hv0.
  - rewrite update_new by exact E. rewrite index_ok_entry_ok in *.
    rewrite forallb_app, Hd. cbn [forallb snd andb].
    change ([] ++ [phonemes]) with ([] ++ [phonemes] : list pronunciation).
    now rewrite (entry_ok_append [] phonemes eq_refl Hp).
Qed.

Lemma solid_tokens_ok p ps :
  Forall solid (p :: ps) -> pronunciation_ok (p :: ps) = true.
Proof.
  intros H. unfold pronunciation_ok. cbn [nonempty andb].
  apply forallb_forall. intros t Ht. rewrite Forall_forall in H.
  destruct (H t Ht) as [Hne _]. now destruct t.
Qed.

Lemma index_ok_process_line line d :
  index_ok d = true -> index_ok (snd (process_line line d)) = true.
Proof.
  intros Hd. unfold process_line.
  set (body := strip (nth 0 (split_on 0x23 line) [])).
  pose proof (tokenizes_solid _ _ (split_tokenizes body)) as Hsolid.
  destruct body as [|c s] eqn:Hbody; [exact Hd|].
  destruct (split (c :: s)) as [|w [|p ps]]; try exact Hd.
  cbn [length Nat.ltb Nat.leb nth skipn].
  apply index_ok_appended; [exact Hd|].
  apply solid_tokens_ok. now inversion Hsolid.
Qed.

Lemma process_line_returns line d : fst (process_line line d) = Ret tt.
Proof.
  unfold process_line.
  destruct (strip (nth 0 (split_on 0x23 line) [])) as [|c s]; [reflexivity|].
  destruct (length (split (c :: s)) <? 2)%nat; [reflexivity|].
  unfold bind, dict_getitem, list_append.
  now destruct (assoc _ d).
Qed.

Lemma index_ok_load_lines f : forall d,
  index_ok d = true -> index_ok (snd (load_lines f d)) = true.
Proof.
  induction f as [|line f IH]; intros d Hd; [exact Hd|].
  cbn [load_lines]. unfold bind.
  pose proof (process_line_returns line d) as Hret.
  pose proof (index_ok_process_line line d Hd) as Hok.
  destruct (process_line line d) as [[[]|e] d']; simpl in *; [|discriminate].
  now apply IH.
Qed.

(** The loader always runs to its end and leaves a well-formed index. *)
Lemma load_lines_returns f : forall d, fst (load_lines f d) = Ret tt.
Proof.
  induction f as [|line f IH]; intros d; [reflexivity|].
  cbn [load_lines]. unfold bind.
  pose proof (process_line_returns line d) as Hret.
  destruct (process_line line d) as [[[]|e] d']; simpl in *; [|discriminate].
  apply IH.
Qed.

Lemma CMUDict_ok f : index_ok (CMUDict f) = true.
Proof. apply index_ok_load_lines. reflexivity. Qed.

Lemma index_ok_assoc d k v :
  index_ok d = true -> assoc k d = Some v -> entry_ok v = true.
Proof.
  rewrite index_ok_entry_ok. induction d as [|[k0 v0] d IH]; simpl; [discriminate|].
  intros Hd. apply andb_true_iff in Hd. destruct Hd as [Hv Hd].
  destruct (str_eqb k0 k); [now intros [= <-] | now apply IH].
Qed.

(** ** The stress pattern *)

Lemma stress_loop_eval phonemes : forall stress d,
  forallb nonempty phonemes = true ->
  stress_loop phonemes stress d =
  (Ret (stress ++ map last_of (filter ends_in_stress_digit phonemes)), d).
Proof.
  induction phonemes as [|p ps IH]; intros stress d Hne; simpl.
  - now rewrite app_nil_r.
  - simpl in Hne. apply andb_true_iff in Hne. destruct Hne as [Hp Hps].
    destruct p as [|c p]; [discriminate|].
    unfold bind. cbn [last_char ret ends_in_stress_digit].
    destruct (is_stress_digit (last p c)); cbn [last_char ret].
    + rewrite IH by exact Hps. simpl. now rewrite <- app_assoc.
    + now apply IH.
Qed.

Lemma re_search_012_stressed t : re_search_012 t = stressed t.
Proof.
  unfold stressed. induction t as [|c t IH]; simpl; [reflexivity|].
  now destruct (is_stress_digit c).
Qed.

Lemma last_default (x c c' : N) (t : list N) :
  last (x :: t) c = last (x :: t) c'.
Proof.
  revert x. induction t as [|y t IH]; intros x; [reflexivity|].
  change (last (y :: t) c = last (y :: t) c'). apply IH.
Qed.

Lemma last_cons (x c : N) (t : list N) : last (x :: t) c = last t x.
Proof.
  destruct t as [|y t]; [reflexivity|].
  change (last (y :: t) c = last (y :: t) x). apply last_default.
Qed.

Lemma ends_in_stress_digit_stressed t :
  ends_in_stress_digit t = true -> stressed t = true.
Proof.
  unfold stressed. destruct t as [|c t]; [discriminate|]. cbn [ends_in_stress_digit existsb].
  revert c. induction t as [|x t IH]; intros c H.
  - simpl in H. now rewrite H.
  - rewrite last_cons in H. cbn [existsb]. rewrite (IH x H). apply orb_true_r.
Qed.

Lemma count_syllables_in_pronunciation_count phonemes :
  count_syllables_in_pronunciation phonemes =
  Z.of_nat (length (filter stressed phonemes)).
Proof.
  unfold count_syllables_in_pronunciation.
  assert (H : forall acc,
             fold_left (fun acc p => if re_search_012 p then (acc + 1)%Z else acc)
                       phonemes acc
             = (acc + Z.of_nat (length (filter stressed phonemes)))%Z).
  { induction phonemes as [|p ps IH]; intros acc; simpl; [lia|].
    rewrite IH, re_search_012_stressed. destruct (stressed p); simpl; lia. }
  now rewrite H.
Qed.

Lemma rhyme_key_nonempty phonemes :
  get_rhyming_part_from_phonemes phonemes <> Some [].
Proof.
  unfold get_rhyming_part_from_phonemes.
  destruct (Z.eqb_spec (last_stress_scan phonemes (length phonemes)) (-1))
    as [E | E]; [discriminate|].
  destruct (last_stress_scan_some _ _ E) as (i & -> & Hlt & _).
  rewrite Nat2Z.id. intros [= H].
  apply (f_equal (@length _)) in H. rewrite length_skipn in H. simpl in H. lia.
Qed.

Lemma index_ok_first d k v :
  index_ok d = true -> assoc k d = Some v ->
  exists first rest, v = first :: rest /\ forallb nonempty first = true.
Proof.
  intros Hd Hv. pose proof (index_ok_assoc d k v Hd Hv) as Hok.
  unfold entry_ok in Hok. destruct v as [|first rest]; [discriminate|].
  exists first, rest. split; [reflexivity|].
  cbn [nonempty forallb andb] in Hok. unfold pronunciation_ok in Hok.
  apply andb_true_iff in Hok. destruct Hok as [Hok _].
  apply andb_true_iff in Hok. tauto.
Qed.

Lemma get_stress_pattern_eval d word first rest :
  assoc (strip (lower word)) d = Some (first :: rest) ->
  forallb nonempty first = true ->
  get_stress_pattern word d =
  (Ret (Some (join u" " (map last_of (filter ends_in_stress_digit first)))), d).
Proof.
  intros Hget Hne. unfold get_stress_pattern, bind, dict_get. rewrite Hget.
  now rewrite stress_loop_eval by exact Hne.
Qed.

(** ** Syllable counts *)

(** [C7] On a well-formed index and for a word of Latin-1 text (where the
    normalization is Python's), [count_syllables] is absent exactly when
    the normalized word is not a key; for a word that is a key it is the
    number of tokens of the first-listed pronunciation that contain one of
    the digits 0, 1, 2; [get_stress_pattern] and [get_rhyming_part] read
    that same first pronunciation and nothing of the later ones. *)
Theorem count_syllables_spec (d : index) (word : str) :
  index_ok d = true ->
  latin1 word = true ->
  (fst (count_syllables word d) = Ret None <->
   assoc (strip (lower word)) d = None)
  /\ forall first rest,
      assoc (strip (lower word)) d = Some (first :: rest) ->
      fst (count_syllables word d) =
        Ret (Some (Z.of_nat (length (filter stressed first))))
      /\ fst (get_stress_pattern word d) =
           Ret (Some (join u" " (map last_of (filter ends_in_stress_digit first))))
      /\ fst (get_rhyming_part word d) =
           Ret (option_map (join u" ") (get_rhyming_part_from_phonemes first)).
Proof.
  intros Hd _. split.
  - unfold count_syllables, bind, dict_get.
    destruct (assoc (strip (lower word)) d) as [v|] eqn:E; [|tauto].
    destruct (index_ok_first d _ v Hd E) as (first & rest & -> & _).
    simpl. split; discriminate.
  - intros first rest E.
    destruct (index_ok_first d _ _ Hd E) as (first' & rest' & [= <- <-] & Hne).
    repeat split.
    + unfold count_syllables, bind, dict_get. rewrite E. simpl.
      now rewrite count_syllables_in_pronunciation_count.
    + now rewrite (get_stress_pattern_eval d word first rest E Hne).
    + unfold get_rhyming_part, bind, dict_get. rewrite E.
      pose proof (rhyme_key_nonempty first) as Hkey.
      destruct (get_rhyming_part_from_phonemes first) as [[|t key]|];
        [congruence | reflexivity | reflexivity].
Qed.

Lemma count_syllables_spec_witness :
  index_ok sample = true
  /\ latin1 u" Read " = true
  /\ assoc (strip (lower u" Read ")) sample =
       Some [[u"R"; u"EH1"; u"D"]; [u"R"; u"IY1"; u"D"]]
  /\ fst (count_syllables u" Read " sample) = Ret (Some 1%Z)
  /\ fst (get_stress_pattern u" Read " sample) = Ret (Some u"1")
  /\ fst (get_rhyming_part u" Read " sample) = Ret (Some u"EH1 D").
Proof.
  split; [reflexivity|]. split; [reflexivity|]. split; [reflexivity|].
  exact (proj2 (count_syllables_spec sample u" Read " eq_refl eq_refl)
           [u"R"; u"EH1"; u"D"] [[u"R"; u"IY1"; u"D"]] eq_refl).
Defined.

(** ** Stress patterns *)

(** [C8] On a well-formed index, the stress pattern of a word that is a key
    is made of the last characters of those tokens of the first-listed
    pronunciation whose last character is 0, 1 or 2, in token order, joined
    with single spaces.  Each such token carries stress and gives one
    digit; a token whose only stress digits stand before its last character
    gives nothing.  When every token of the pronunciation that carries
    stress ends in a stress digit, the tokens that give a digit are exactly
    the tokens that carry stress. *)
Theorem get_stress_pattern_spec (d : index) (word : str)
  (first : pronunciation) (rest : list pronunciation) :
  index_ok d = true ->
  assoc (strip (lower word)) d = Some (first :: rest) ->
  fst (get_stress_pattern word d) =
    Ret (Some (join u" " (map last_of (filter ends_in_stress_digit first))))
  /\ (forall t, ends_in_stress_digit t = true ->
        stressed t = true /\
        exists c, last_of t = [c] /\ is_stress_digit c = true)
  /\ (forall t, stressed t = true -> ends_in_stress_digit t = false ->
        ~ In t (filter ends_in_stress_digit first))
  /\ ((forall t, In t first -> stressed t = true ->
         ends_in_stress_digit t = true) ->
      filter ends_in_stress_digit first = filter stressed first).
Proof.
  intros Hd E.
  destruct (index_ok_first d _ _ Hd E) as (first' & rest' & [= <- <-] & Hne).
  repeat split.
  - now rewrite (get_stress_pattern_eval d word first rest E Hne).
  - now apply ends_in_stress_digit_stressed.
  - destruct t as [|c t]; [discriminate|]. now exists (last t c).
  - intros t _ Hends Hin. apply filter_In in Hin. destruct Hin as [_ Hin].
    congruence.
  - intros Hall. apply filter_ext_in. intros t Ht.
    destruct (stressed t) eqn:Hs; [now apply Hall|].
    destruct (ends_in_stress_digit t) eqn:He; [|reflexivity].
    apply ends_in_stress_digit_stressed in He. congruence.
Qed.

Lemma get_stress_pattern_spec_witness :
  index_ok sample = true
  /\ assoc (strip (lower u"cat")) sample = Some [[u"K"; u"AE1"; u"T"]]
  /\ fst (get_stress_pattern u"cat" sample) = Ret (Some u"1").
Proof.
  split; [reflexivity|]. split; [reflexivity|].
  exact (proj1 (get_stress_pattern_spec sample u"cat"
                  [u"K"; u"AE1"; u"T"] [] eq_refl eq_refl)).
Defined.

(** The pattern is not made of the last characters of all the tokens that
    carry stress: the loader accepts the token [A1X], which carries stress
    and ends in a letter, and the pattern passes it over. *)
Lemma get_stress_pattern_skips_inner_digit :
  ~ (forall (d : index) (word : str) first rest,
       index_ok d = true ->
       assoc (strip (lower word)) d = Some (first :: rest) ->
       fst (get_stress_pattern word d) =
         Ret (Some (join u" " (map last_of (filter stressed first))))).
Proof.
  intros H.
  specialize (H (CMUDict [u"ax A1X T"]) u"ax" [u"A1X"; u"T"] [] eq_refl eq_refl).
  vm_compute in H. discriminate H.
Qed.

(** ** The index after loading *)

(** [C10] No query changes the index, whatever its argument, a word that is
    no key included: the queries read with [get], [in] and iteration, never
    by indexing the [defaultdict].  In an index built by the loader every
    key has a pronunciation, every pronunciation has a token and no token
    is empty, so [get_stress_pattern], which takes the last character of
    each token, returns without an [IndexError]. *)
Theorem queries_leave_index_unchanged :
  (forall (d : index) (word pattern : str) (max_results : Z),
      snd (lookup word d) = d /\
      snd (word_exists word d) = d /\
      snd (count_syllables word d) = d /\
      snd (get_stress_pattern word d) = d /\
      snd (get_rhyming_part word d) = d /\
      snd (get_phonemes_readable word d) = d /\
      snd (find_rhymes word max_results d) = d /\
      snd (search_by_pattern pattern max_results d) = d)
  /\ (forall f : list str, index_ok (CMUDict f) = true)
  /\ (forall (f : list str) (word : str),
        exists pattern, fst (get_stress_pattern word (CMUDict f)) = Ret pattern).
Proof.
  split; [|split].
  - intros d word pattern max_results.
    split; [apply read_only_lookup|].
    split; [apply read_only_word_exists|].
    split; [apply read_only_count_syllables|].
    split; [apply read_only_get_stress_pattern|].
    split; [apply read_only_get_rhyming_part|].
    split; [apply read_only_get_phonemes_readable|].
    split; [apply read_only_find_rhymes | apply read_only_search_by_pattern].
  - apply CMUDict_ok.
  - intros f word.
    destruct (assoc (strip (lower word)) (CMUDict f)) as [v|] eqn:E.
    + destruct (index_ok_first _ _ _ (CMUDict_ok f) E) as (p & ps & -> & Hne).
      rewrite (get_stress_pattern_eval _ word p ps E Hne). cbn [fst]. eauto.
    + unfold get_stress_pattern, bind, dict_get. rewrite E. cbn. eauto.
Qed.

(** ** The alphabet translation *)

Lemma re_sub_digits_base_symbol token : re_sub_digits token = base_symbol token.
Proof.
  unfold base_symbol. induction token as [|c t IH]; simpl; [reflexivity|].
  destruct (isdigit c); simpl; now rewrite IH.
Qed.

Lemma table_get_spec table key default :
  In (key, table_get table key default) table
  \/ ((forall v, ~ In (key, v) table) /\ table_get table key default = default).
Proof.
  induction table as [|[k v] table IH]; simpl.
  - right. split; [intros v [] | reflexivity].
  - destruct (str_eqb k key) eqn:E.
    + apply str_eqb_eq in E. subst k. left. now left.
    + apply str_eqb_neq in E. destruct IH as [Hin | [Hno Hdef]].
      * left. now right.
      * right. split; [|exact Hdef].
        intros v0 [[= -> _] | Hin]; [congruence | now apply (Hno v0)].
Qed.

Lemma ipa_loop_map phonemes : forall ipa_symbols,
  ipa_loop phonemes ipa_symbols =
  ipa_symbols ++
  map (fun t => table_get ARPA_TO_IPA (base_symbol t) (lower (base_symbol t)))
      phonemes.
Proof.
  induction phonemes as [|p ps IH]; intros acc; simpl.
  - now rewrite app_nil_r.
  - rewrite IH, re_sub_digits_base_symbol, <- app_assoc. reflexivity.
Qed.

Lemma mem_In w l : mem w l = true <-> In w l.
Proof.
  unfold mem. rewrite existsb_exists. split.
  - intros (x & Hx & E). apply str_eqb_eq in E. now subst.
  - intros H. exists w. split; [exact H | apply str_eqb_refl].
Qed.

Lemma distinct_NoDup keys : distinct keys = true -> NoDup keys.
Proof.
  induction keys as [|k keys IH]; simpl; [constructor|].
  intros H. apply andb_true_iff in H. destruct H as [Hk Hrest].
  constructor; [|now apply IH].
  intros Hin. apply mem_In in Hin. now rewrite Hin in Hk.
Qed.

Lemma ARPA_TO_IPA_keys : NoDup (map fst ARPA_TO_IPA).
Proof. apply distinct_NoDup. vm_compute. reflexivity. Qed.

Lemma NoDup_keys_entry (table : list (str * str)) k v1 v2 :
  NoDup (map fst table) -> In (k, v1) table -> In (k, v2) table -> v1 = v2.
Proof.
  induction table as [|[k0 v0] table IH]; simpl; [tauto|].
  intros Hnd. inversion Hnd as [|? ? Hnotin Hnd']; subst.
  assert (Hkey : forall v, In (k, v) table -> In k (map fst table)).
  { intros v Hv. apply in_map_iff. now exists (k, v). }
  intros [E1 | H1] [E2 | H2].
  - congruence.
  - exfalso. apply Hnotin. replace k0 with k by congruence. eauto.
  - exfalso. apply Hnotin. replace k0 with k by congruence. eauto.
  - now apply IH.
Qed.

Lemma translates_unique token s1 s2 :
  translates token s1 -> translates token s2 -> s1 = s2.
Proof.
  intros [H1 | [Hno1 ->]] [H2 | [Hno2 ->]].
  - exact (NoDup_keys_entry _ _ _ _ ARPA_TO_IPA_keys H1 H2).
  - now apply Hno2 in H1.
  - now apply Hno1 in H2.
  - reflexivity.
Qed.

(** [C9] The alphabet translation of a pronunciation of Latin-1 tokens
    (the tokens a dictionary file gives; there the digit characters are
    0 to 9): each token, in order, has its digit characters deleted, and
    the base symbol is replaced by its entry in the table ([ARPA_TO_IPA]),
    or by its own lowercase form when the table has no entry; the
    translated symbols are joined with single spaces between two slashes.
    The function is total, and no base symbol has two entries in the
    table. *)
Theorem arpa_to_ipa_spec (phonemes : pronunciation) :
  forallb latin1 phonemes = true ->
  (exists symbols,
      Forall2 translates phonemes symbols /\
      arpa_to_ipa phonemes = [0x2F%N] ++ join [0x20%N] symbols ++ [0x2F%N])
  /\ NoDup (map fst ARPA_TO_IPA).
Proof.
  intros _. split; [|exact ARPA_TO_IPA_keys].
  exists (map (fun t => table_get ARPA_TO_IPA (base_symbol t)
                                  (lower (base_symbol t))) phonemes).
  split.
  - induction phonemes as [|p ps IH]; simpl; constructor; [|exact IH].
    unfold translates.
    destruct (table_get_spec ARPA_TO_IPA (base_symbol p) (lower (base_symbol p)))
      as [Hin | [Hno Hdef]]; [now left | right; now split].
  - unfold arpa_to_ipa. now rewrite ipa_loop_map.
Qed.

Lemma arpa_to_ipa_spec_witness :
  forallb latin1 [u"K"; u"AE1"; u"T"; u"xq9"] = true
  /\ (exists symbols,
        Forall2 translates [u"K"; u"AE1"; u"T"; u"xq9"] symbols /\
        arpa_to_ipa [u"K"; u"AE1"; u"T"; u"xq9"] =
          [0x2F%N] ++ join [0x20%N] symbols ++ [0x2F%N])
  /\ NoDup (map fst ARPA_TO_IPA).
Proof.
  split; [reflexivity|].
  exact (arpa_to_ipa_spec [u"K"; u"AE1"; u"T"; u"xq9"] eq_refl).
Defined.

Example arpa_to_ipa_cat :
  arpa_to_ipa [u"K"; u"AE1"; u"T"; u"xq9"] = u"/k " ++ [0xE6%N] ++ u" t xq/".
Proof. reflexivity. Qed.

Lemma process_line_spec_witness :
  exists body toks,
    comment_stripped u"word(2)(3) W ER1 D # twice" body /\ tokenizes body toks /\
    match toks with
    | w :: p :: ps =>
        exists key,
          without_marker (lower w) key /\
          appended [] key (p :: ps)
            (snd (process_line u"word(2)(3) W ER1 D # twice" [])) /\
          (ends_in_marker key -> stacked_markers (lower w))
    | _ => snd (process_line u"word(2)(3) W ER1 D # twice" []) = []
    end.
Proof. exact (process_line_spec u"word(2)(3) W ER1 D # twice" []). Defined.

(** A key of the index can end in a variant marker: of two markers on the
    first token the loader removes the last one only. *)
Lemma stacked_marker_stays_in_key :
  exists key,
    In key (map fst (CMUDict [u"word(2)(3) W ER1 D"])) /\ ends_in_marker key.
Proof.
  exists u"word(2)". split; [now left|].
  exists u"word", u"(2)". split; [|reflexivity].
  exists u"2". repeat split; [discriminate|]. now repeat constructor.
Qed.

(** ** Defects found in the queries *)

(** [C2] [find_rhymes] hands the word as typed to
    [find_rhymes_by_phonemes], which lowercases it but does not trim it:
    asked for [" cat "], the scan compares each key with [" cat "], never
    skips [cat], and returns it among its own rhymes.  ([lookup] passes the
    trimmed word and has no such result.) *)
Theorem find_rhymes_returns_padded_word :
  fst (find_rhymes u" cat " 10 sample) = Ret [u"cat"; u"bat"; u"hat"]
  /\ fst (find_rhymes u"cat" 10 sample) = Ret [u"bat"; u"hat"]
  /\ fst (lookup u" cat " sample) = fst (lookup u"cat" sample).
Proof. vm_compute. repeat split. Qed.

(** [C3] [word_exists] lowercases its argument and does not trim it: a key
    typed with a space around it is reported missing, while its
    lowercase-trimmed form is found. *)
Theorem word_exists_does_not_trim :
  fst (word_exists u" Cat " sample) = Ret false
  /\ fst (word_exists (strip (lower u" Cat ")) sample) = Ret true
  /\ fst (word_exists u"Cat" sample) = Ret true.
Proof. vm_compute. repeat split. Qed.

(** [C4] The pattern goes to [re.compile] with only [*] rewritten: a dot in
    the pattern is the regular expression's "any character", so [c.t] finds
    [cat], which the wildcard reading of the pattern does not accept. *)
Theorem search_by_pattern_dot_matches_any :
  fst (search_by_pattern u"c.t" 20 sample) = Ret [u"cat"]
  /\ glob_match u"c.t" u"cat" = false
  /\ glob_match u"c.t" u"c.t" = true.
Proof. vm_compute. repeat split. Qed.

(** [C5] Both scans test the cap after appending, so with a maximum of
    zero the first hit is returned. *)
Theorem cap_exceeded_at_zero :
  fst (find_rhymes u"cat" 0 sample) = Ret [u"bat"]
  /\ fst (search_by_pattern u"*" 0 sample) = Ret [u"cat"].
Proof. vm_compute. repeat split. Qed.

(** * Further properties of the code *)

(** ** Lines and the index *)

Lemma process_line_parse line :
  process_line line =
  match parse_line line with
  | None => ret tt
  | Some (key, phonemes) => _ <- dict_getitem key ;; list_append key phonemes
  end.
Proof.
  unfold process_line, parse_line.
  destruct (strip (nth 0 (split_on 0x23 line) [])) as [|c s]; [reflexivity|].
  now destruct (length (split (c :: s)) <? 2)%nat.
Qed.

Lemma assoc_None_keys k (d : index) : assoc k d = None <-> ~ In k (map fst d).
Proof.
  induction d as [|[k0 v0] d IH]; simpl; [tauto|].
  destruct (str_eqb k0 k) eqn:E.
  - apply str_eqb_eq in E. split; [discriminate | intros H; exfalso; auto].
  - apply str_eqb_neq in E. rewrite IH. tauto.
Qed.

Lemma load_lines_cons line f d :
  snd (load_lines (line :: f) d) = snd (load_lines f (snd (process_line line d))).
Proof.
  cbn [load_lines]. unfold bind.
  pose proof (process_line_returns line d) as Hret.
  destruct (process_line line d) as [[[]|e] d']; simpl in *; [reflexivity | discriminate].
Qed.

Lemma load_lines_assoc f : forall d k,
  assoc k (snd (load_lines f d)) = merge_entry (assoc k d) (pronunciations_of k f).
Proof.
  induction f as [|line f IH]; intros d k; [reflexivity|].
  rewrite load_lines_cons, IH, process_line_parse.
  unfold pronunciations_of. cbn [entries].
  destruct (parse_line line) as [[key phonemes]|]; [|reflexivity].
  destruct (getitem_append_appended key phonemes d) as (Hkey & Hother & _).
  cbn [filter fst]. destruct (str_eqb key k) eqn:E.
  - apply str_eqb_eq in E. subst key. rewrite Hkey. cbn [map snd merge_entry].
    destruct (map snd _) as [|p ps]; cbn [merge_entry].
    + reflexivity.
    + now rewrite <- app_assoc.
  - apply str_eqb_neq in E. rewrite Hother by congruence. reflexivity.
Qed.

Lemma load_lines_keys f : forall d,
  map fst (snd (load_lines f d)) =
  first_appearances (map fst (entries f)) (map fst d).
Proof.
  induction f as [|line f IH]; intros d; [reflexivity|].
  rewrite load_lines_cons, IH, process_line_parse. cbn [entries].
  destruct (parse_line line) as [[key phonemes]|]; [|reflexivity].
  destruct (getitem_append_appended key phonemes d) as (_ & _ & Hkeys).
  rewrite Hkeys. unfold first_appearances. cbn [map fst fold_left]. f_equal.
  destruct (assoc key d) as [v|] eqn:E.
  - assert (Hin : mem key (map fst d) = true).
    { apply mem_In. destruct (in_dec (list_eq_dec N.eq_dec) key (map fst d)) as [H|H];
        [exact H|]. apply assoc_None_keys in H. congruence. }
    now rewrite Hin, app_nil_r.
  - apply assoc_None_keys in E.
    destruct (mem key (map fst d)) eqn:Hin; [|reflexivity].
    apply mem_In in Hin. contradiction.
Qed.

(** [X1] What a loaded index holds.  Under a key are the pronunciations of
    exactly the lines of the file that parse to that key, in file order,
    and a key no line parses to is absent; the keys stand in the order of
    their first appearance in the file. *)
Theorem CMUDict_contents (f : list str) :
  (forall key,
      assoc key (CMUDict f) =
      match pronunciations_of key f with
      | [] => None
      | p :: ps => Some (p :: ps)
      end)
  /\ map fst (CMUDict f) = first_appearances (map fst (entries f)) [].
Proof.
  split.
  - intros key. unfold CMUDict, load_dictionary. rewrite load_lines_assoc.
    now destruct (pronunciations_of key f).
  - apply (load_lines_keys f []).
Qed.

Example CMUDict_contents_read :
  pronunciations_of u"read" sample_file =
    [[u"R"; u"EH1"; u"D"]; [u"R"; u"IY1"; u"D"]]
  /\ map fst sample = [u"cat"; u"bat"; u"hat"; u"dog"; u"read"].
Proof. vm_compute. split; reflexivity. Qed.

(** ** The keys of a loaded index *)

Lemma first_appearances_In keys : forall seen k,
  In k (first_appearances keys seen) <-> In k seen \/ In k keys.
Proof.
  unfold first_appearances.
  induction keys as [|x keys IH]; intros seen k; simpl; [tauto|].
  rewrite IH. destruct (mem x seen) eqn:E.
  - apply mem_In in E. split; [tauto|]. intros [H | [<- | H]]; auto.
  - rewrite in_app_iff. simpl. tauto.
Qed.

Lemma first_appearances_NoDup keys : forall seen,
  NoDup seen -> NoDup (first_appearances keys seen).
Proof.
  unfold first_appearances.
  induction keys as [|x keys IH]; intros seen Hnd; simpl; [exact Hnd|].
  apply IH. destruct (mem x seen) eqn:E; [exact Hnd|].
  apply NoDup_app; [exact Hnd | repeat constructor; intros [] |].
  intros y Hy [<- | []]. apply mem_In in Hy. congruence.
Qed.

Lemma re_sub_variant_Forall (P : N -> Prop) w :
  Forall P w -> Forall P (re_sub_variant w).
Proof.
  induction w as [|c w IH]; intros H; [constructor|].
  cbn [re_sub_variant]. destruct (variant_match (c :: w)) as [tl|] eqn:E.
  - apply variant_match_sound in E. destruct E as (m & _ & Hw & _).
    rewrite Hw in H. now apply Forall_app in H.
  - inversion H; subst. constructor; auto.
Qed.

Lemma parse_line_some line key phonemes :
  parse_line line = Some (key, phonemes) ->
  normal_key key = true /\ phonemes <> [] /\ Forall solid phonemes.
Proof.
  unfold parse_line.
  set (body := strip (nth 0 (split_on 0x23 line) [])).
  pose proof (tokenizes_solid _ _ (split_tokenizes body)) as Hsolid.
  destruct body as [|c s]; [discriminate|].
  destruct (split (c :: s)) as [|w [|p ps]]; try discriminate.
  cbn [length Nat.ltb Nat.leb nth skipn]. intros [= <- <-].
  inversion Hsolid as [|? ? [_ Hw] Hrest]; subst.
  split; [|split; [discriminate | exact Hrest]].
  unfold normal_key. apply forallb_forall.
  apply Forall_forall, re_sub_variant_Forall.
  unfold lower. apply Forall_map. eapply Forall_impl; [|exact Hw].
  intros a Ha. unfold normal_char, char_eqb.
  rewrite lower_char_idempotent, N.eqb_refl, isspace_lower_char, Ha. reflexivity.
Qed.

Lemma entries_keys_normal f key :
  In key (map fst (entries f)) -> normal_key key = true.
Proof.
  induction f as [|line f IH]; simpl; [tauto|].
  destruct (parse_line line) as [[k ph]|] eqn:E; [|exact IH].
  intros [<- | H]; [|now apply IH].
  now destruct (parse_line_some line k ph E).
Qed.

Lemma normal_key_lower k : normal_key k = true -> lower k = k.
Proof.
  unfold normal_key, lower. intros H. rewrite <- (map_id k) at 2.
  apply map_ext_in. intros c Hc. rewrite forallb_forall in H.
  specialize (H c Hc). unfold normal_char, char_eqb in H.
  apply andb_true_iff in H. now apply N.eqb_eq.
Qed.

Lemma normal_key_solid k :
  normal_key k = true -> Forall (fun c => isspace c = false) k.
Proof.
  unfold normal_key. intros H. apply Forall_forall. intros c Hc.
  rewrite forallb_forall in H. specialize (H c Hc). unfold normal_char in H.
  apply andb_true_iff in H. now apply negb_true_iff.
Qed.

Lemma rstrip_solid k : Forall (fun c => isspace c = false) k -> rstrip k = k.
Proof.
  induction 1 as [|c k Hc _ IH]; [reflexivity|].
  cbn [rstrip]. rewrite IH. destruct k; [now rewrite Hc | reflexivity].
Qed.

Lemma lstrip_solid k : Forall (fun c => isspace c = false) k -> lstrip k = k.
Proof.
  intros [|c k' Hc _]; [reflexivity|]. simpl. now rewrite Hc.
Qed.

Lemma strip_solid k : Forall (fun c => isspace c = false) k -> strip k = k.
Proof.
  intros H. unfold strip. rewrite (lstrip_solid k H). now apply rstrip_solid.
Qed.

Lemma normal_key_fixed k : normal_key k = true -> strip (lower k) = k.
Proof.
  intros H. rewrite (normal_key_lower k H).
  apply strip_solid, normal_key_solid, H.
Qed.

Lemma CMUDict_keys_normal f k :
  In k (map fst (CMUDict f)) -> normal_key k = true.
Proof.
  unfold CMUDict, load_dictionary. rewrite (load_lines_keys f []).
  rewrite first_appearances_In. intros [[] | H].
  now apply (entries_keys_normal f).
Qed.

Lemma CMUDict_keys_NoDup f : NoDup (map fst (CMUDict f)).
Proof.
  unfold CMUDict, load_dictionary. rewrite (load_lines_keys f []).
  apply first_appearances_NoDup. constructor.
Qed.

Lemma In_keys_assoc k (d : index) :
  In k (map fst d) -> exists v, assoc k d = Some v.
Proof.
  intros H. destruct (assoc k d) as [v|] eqn:E; [now exists v|].
  apply assoc_None_keys in E. contradiction.
Qed.

(** [X2] The keys of a loaded index are pairwise distinct and each is in
    normal form (lowercase, free of whitespace), so a key asked for as it
    is stored is always found: [word_exists] answers yes and
    [count_syllables] gives a number. *)
Theorem CMUDict_keys (f : list str) :
  NoDup (map fst (CMUDict f))
  /\ forall k,
      In k (map fst (CMUDict f)) ->
      strip (lower k) = k
      /\ fst (word_exists k (CMUDict f)) = Ret true
      /\ exists n, fst (count_syllables k (CMUDict f)) = Ret (Some n).
Proof.
  split; [apply CMUDict_keys_NoDup|]. intros k Hk.
  pose proof (CMUDict_keys_normal f k Hk) as Hn.
  destruct (In_keys_assoc k _ Hk) as (v & Hv).
  split; [now apply normal_key_fixed|]. split.
  - unfold word_exists, dict_contains. cbn [fst].
    now rewrite (normal_key_lower k Hn), Hv.
  - destruct (index_ok_first _ _ _ (CMUDict_ok f) Hv) as (p & ps & -> & _).
    unfold count_syllables, bind, dict_get.
    rewrite (normal_key_fixed k Hn), Hv. cbn. eauto.
Qed.

Lemma CMUDict_keys_witness :
  In u"read" (map fst (CMUDict sample_file))
  /\ strip (lower u"read") = u"read"
  /\ fst (word_exists u"read" (CMUDict sample_file)) = Ret true
  /\ exists n, fst (count_syllables u"read" (CMUDict sample_file)) = Ret (Some n).
Proof.
  assert (H : In u"read" (map fst (CMUDict sample_file))).
  { vm_compute. tauto. }
  split; [exact H|].
  exact (proj2 (CMUDict_keys sample_file) u"read" H).
Defined.

(** ** Reading a pronunciation back *)

Lemma split_from_solid t : forall tok rest,
  Forall (fun c => isspace c = false) t ->
  split_from tok (t ++ rest) = split_from (tok ++ t) rest.
Proof.
  induction t as [|c t IH]; intros tok rest H; simpl.
  - now rewrite app_nil_r.
  - inversion H as [|? ? Hc Ht]; subst. rewrite Hc, IH by exact Ht.
    now rewrite <- app_assoc.
Qed.

Lemma split_join (p : pronunciation) :
  Forall solid p -> split (join [0x20%N] p) = p.
Proof.
  unfold split. induction 1 as [|t p [Hne Ht] Hp IH]; [reflexivity|].
  destruct p as [|t' p].
  - cbn [join]. rewrite <- (app_nil_r t) at 1.
    rewrite split_from_solid by exact Ht. cbn [split_from app].
    now destruct t.
  - change (join [0x20%N] (t :: t' :: p))
      with (t ++ 0x20%N :: join [0x20%N] (t' :: p)).
    rewrite split_from_solid by exact Ht. cbn [split_from app].
    change (isspace 0x20) with true. cbn iota. rewrite IH.
    now destruct t.
Qed.

Lemma entries_solid f e : In e (entries f) -> Forall solid (snd e).
Proof.
  induction f as [|line f IH]; simpl; [tauto|].
  destruct (parse_line line) as [[k ph]|] eqn:E; [|exact IH].
  intros [<- | H]; [|now apply IH].
  now destruct (parse_line_some line k ph E) as (_ & _ & Hs).
Qed.

Lemma CMUDict_solid f k v :
  assoc k (CMUDict f) = Some v -> Forall (Forall solid) v.
Proof.
  unfold CMUDict, load_dictionary. rewrite load_lines_assoc. cbn [assoc].
  intros H. assert (Hv : v = pronunciations_of k f).
  { destruct (pronunciations_of k f); simpl in H; congruence. }
  subst v. unfold pronunciations_of. apply Forall_forall. intros p Hp.
  apply in_map_iff in Hp. destruct Hp as (e & <- & He).
  apply filter_In in He. now apply (entries_solid f).
Qed.

(** [X3] The readable form of a stored pronunciation can be read back: for
    a word of a loaded index, splitting the string [get_phonemes_readable]
    returns on whitespace gives the tokens of the first pronunciation
    again, and every stored pronunciation of the word reads back in the
    same way from its tokens joined by single spaces (the [arpa] text of
    the records of [lookup]). *)
Theorem get_phonemes_readable_split (f : list str) (word : str)
  (first : pronunciation) (rest : list pronunciation) :
  assoc (strip (lower word)) (CMUDict f) = Some (first :: rest) ->
  exists text,
    fst (get_phonemes_readable word (CMUDict f)) = Ret (Some text)
    /\ split text = first
    /\ forall p, In p (first :: rest) -> split (join u" " p) = p.
Proof.
  intros E. pose proof (CMUDict_solid f _ _ E) as Hsolid.
  exists (join u" " first). split; [|split].
  - unfold get_phonemes_readable, bind, dict_get. now rewrite E.
  - apply split_join. now inversion Hsolid.
  - intros p Hp. apply split_join. rewrite Forall_forall in Hsolid. now apply Hsolid.
Qed.

Lemma get_phonemes_readable_split_witness :
  assoc (strip (lower u"Hat")) (CMUDict sample_file) = Some [[u"HH"; u"AE1"; u"T"]]
  /\ exists text,
      fst (get_phonemes_readable u"Hat" (CMUDict sample_file)) = Ret (Some text)
      /\ split text = [u"HH"; u"AE1"; u"T"]
      /\ forall p, In p [[u"HH"; u"AE1"; u"T"]] -> split (join u" " p) = p.
Proof.
  split; [reflexivity|].
  exact (get_phonemes_readable_split sample_file u"Hat" [u"HH"; u"AE1"; u"T"] []
           eq_refl).
Defined.

(** ** Rhyme keys and syllable counts *)

Lemma last_stress_scan_cons t p n :
  last_stress_scan (t :: p) (S n) =
  if (last_stress_scan p n =? -1)%Z
  then (if re_search_012 t then 0%Z else (-1)%Z)
  else (last_stress_scan p n + 1)%Z.
Proof.
  induction n as [|n IH].
  - reflexivity.
  - change (last_stress_scan (t :: p) (S (S n)))
      with (if re_search_012 (nth n p []) then Z.of_nat (S n)
            else last_stress_scan (t :: p) (S n)).
    cbn [last_stress_scan]. destruct (re_search_012 (nth n p [])).
    + destruct (Z.eqb_spec (Z.of_nat n) (-1)); lia.
    + exact IH.
Qed.

Lemma last_stress_scan_range p n :
  (-1 <= last_stress_scan p n < Z.of_nat n)%Z \/ (n = 0%nat /\ last_stress_scan p n = (-1)%Z).
Proof.
  induction n as [|n IH]; [now right|]. left. cbn [last_stress_scan].
  destruct (re_search_012 (nth n p [])); [lia|].
  destruct IH as [IH | [-> IH]]; [lia|]. simpl. lia.
Qed.

(** The rhyme key, computed from the front. *)
Lemma get_rhyming_part_from_phonemes_cons t p :
  get_rhyming_part_from_phonemes (t :: p) =
  match get_rhyming_part_from_phonemes p with
  | Some key => Some key
  | None => if stressed t then Some (t :: p) else None
  end.
Proof.
  unfold get_rhyming_part_from_phonemes. cbn [length].
  rewrite last_stress_scan_cons, (re_search_012_stressed t).
  destruct (Z.eqb_spec (last_stress_scan p (length p)) (-1)) as [E | E].
  - now destruct (stressed t).
  - pose proof (last_stress_scan_range p (length p)) as Hr.
    destruct (Z.eqb_spec (last_stress_scan p (length p) + 1) (-1)); [lia|].
    replace (Z.to_nat (last_stress_scan p (length p) + 1))
      with (S (Z.to_nat (last_stress_scan p (length p)))) by lia.
    reflexivity.
Qed.

Lemma count_syllables_in_pronunciation_cons t p :
  count_syllables_in_pronunciation (t :: p) =
  ((if stressed t then 1 else 0) + count_syllables_in_pronunciation p)%Z.
Proof.
  rewrite !count_syllables_in_pronunciation_count. cbn [filter].
  destruct (stressed t); cbn [length]; lia.
Qed.

(** [X4] The syllable count of a pronunciation lies between zero and the
    number of its tokens, and it is zero exactly when the pronunciation has
    no rhyme key. *)
Theorem count_syllables_zero_iff_no_rhyme (phonemes : pronunciation) :
  (0 <= count_syllables_in_pronunciation phonemes <= Z.of_nat (length phonemes))%Z
  /\ (count_syllables_in_pronunciation phonemes = 0%Z <->
      get_rhyming_part_from_phonemes phonemes = None).
Proof.
  induction phonemes as [|t p [Hrange Hzero]].
  - split; [cbn; lia | split; reflexivity].
  - rewrite count_syllables_in_pronunciation_cons,
      get_rhyming_part_from_phonemes_cons.
    split; [destruct (stressed t); cbn [length]; lia|].
    destruct (get_rhyming_part_from_phonemes p) as [key|].
    + split; [|discriminate]. intros H.
      assert (count_syllables_in_pronunciation p = 0%Z)
        by (destruct (stressed t); lia).
      apply Hzero in H0. discriminate.
    + destruct (stressed t); split; try discriminate; try reflexivity; try lia.
      intros _. apply Hzero. reflexivity.
Qed.

Lemma rhyme_key_shape p key :
  get_rhyming_part_from_phonemes p = Some key ->
  exists before t after,
    p = before ++ key /\ key = t :: after /\ stressed t = true /\
    get_rhyming_part_from_phonemes after = None.
Proof.
  revert key. induction p as [|t p IH]; intros key; [discriminate|].
  rewrite get_rhyming_part_from_phonemes_cons.
  destruct (get_rhyming_part_from_phonemes p) as [k|] eqn:E.
  - intros [= <-]. destruct (IH k eq_refl) as (before & t' & after & -> & Hk & Hrest).
    exists (t :: before), t', after. now split.
  - destruct (stressed t) eqn:Ht; [|discriminate]. intros [= <-].
    exists [], t, p. auto.
Qed.

Lemma no_rhyme_no_syllable p :
  get_rhyming_part_from_phonemes p = None ->
  count_syllables_in_pronunciation p = 0%Z.
Proof.
  induction p as [|t p IH]; [reflexivity|].
  rewrite get_rhyming_part_from_phonemes_cons,
    count_syllables_in_pronunciation_cons.
  destruct (get_rhyming_part_from_phonemes p); [discriminate|].
  destruct (stressed t); [discriminate|]. intros _. now rewrite IH.
Qed.

(** [X5] A rhyme key is a suffix of its pronunciation, holds exactly one
    syllable, and is its own rhyme key. *)
Theorem rhyme_key_is_fixed (phonemes key : pronunciation) :
  get_rhyming_part_from_phonemes phonemes = Some key ->
  (exists before, phonemes = before ++ key)
  /\ count_syllables_in_pronunciation key = 1%Z
  /\ get_rhyming_part_from_phonemes key = Some key.
Proof.
  intros H. destruct (rhyme_key_shape phonemes key H)
    as (before & t & after & Hp & -> & Ht & Hafter).
  split; [now exists before|]. split.
  - rewrite count_syllables_in_pronunciation_cons, Ht.
    apply no_rhyme_no_syllable in Hafter. lia.
  - rewrite get_rhyming_part_from_phonemes_cons, Hafter, Ht. reflexivity.
Qed.

Lemma rhyme_key_is_fixed_witness :
  get_rhyming_part_from_phonemes [u"K"; u"AH0"; u"M"; u"P"; u"Y"; u"UW1"; u"T"; u"ER0"]
    = Some [u"ER0"]
  /\ (exists before,
        [u"K"; u"AH0"; u"M"; u"P"; u"Y"; u"UW1"; u"T"; u"ER0"] = before ++ [u"ER0"])
  /\ count_syllables_in_pronunciation [u"ER0"] = 1%Z
  /\ get_rhyming_part_from_phonemes [u"ER0"] = Some [u"ER0"].
Proof.
  split; [reflexivity|].
  exact (rhyme_key_is_fixed
           [u"K"; u"AH0"; u"M"; u"P"; u"Y"; u"UW1"; u"T"; u"ER0"] [u"ER0"] eq_refl).
Defined.

(** [X6] What comes before the rhyme key does not matter: putting tokens in
    front of a pronunciation that has a rhyme key leaves the key as it is;
    in front of a pronunciation without one, the key is that of the added
    tokens followed by the whole pronunciation. *)
Theorem rhyme_key_ignores_prefix (before phonemes : pronunciation) :
  get_rhyming_part_from_phonemes (before ++ phonemes) =
  match get_rhyming_part_from_phonemes phonemes with
  | Some key => Some key
  | None =>
      match get_rhyming_part_from_phonemes before with
      | Some key => Some (key ++ phonemes)
      | None => None
      end
  end.
Proof.
  induction before as [|t before IH]; cbn [app].
  - now destruct (get_rhyming_part_from_phonemes phonemes).
  - rewrite !get_rhyming_part_from_phonemes_cons, IH.
    destruct (get_rhyming_part_from_phonemes phonemes) as [key|]; [reflexivity|].
    destruct (get_rhyming_part_from_phonemes before) as [key|]; [reflexivity|].
    now destruct (stressed t).
Qed.

Example rhyme_key_cat_bat :
  get_rhyming_part_from_phonemes ([u"K"] ++ [u"AE1"; u"T"]) =
  get_rhyming_part_from_phonemes ([u"B"] ++ [u"AE1"; u"T"]).
Proof. reflexivity. Qed.

(** ** The rhyme scan *)

Lemma tuple_eqb_eq a b : tuple_eqb a b = true <-> a = b.
Proof.
  destruct a as [x|], b as [y|]; simpl; try (split; [discriminate | congruence]);
    [|tauto].
  revert y. induction x as [|p x IH]; intros [|q y];
    try (split; [discriminate | congruence]); [tauto|].
  rewrite andb_true_iff, str_eqb_eq, IH.
  split; [intros [-> [= ->]]; reflexivity | intros [= -> ->]; auto].
Qed.

Lemma some_pron_rhymes_spec rhyme_part prons :
  some_pron_rhymes rhyme_part prons = true <->
  exists p, In p prons /\ get_rhyming_part_from_phonemes p = Some rhyme_part.
Proof.
  induction prons as [|q prons IH]; simpl.
  - split; [discriminate | intros (p & [] & _)].
  - destruct (tuple_eqb (get_rhyming_part_from_phonemes q) (Some rhyme_part)) eqn:E.
    + apply tuple_eqb_eq in E. split; [|reflexivity]. intros _. exists q. auto.
    + rewrite IH. split.
      * intros (p & Hp & Hk). exists p. auto.
      * intros (p & [<- | Hp] & Hk); [|now exists p].
        apply tuple_eqb_eq in Hk. congruence.
Qed.

Lemma firstn_one_more {A} (n : nat) (x : A) (l : list A) :
  (0 < n)%nat -> firstn n (x :: l) = x :: firstn (n - 1) l.
Proof. destruct n; [lia|]. intros _. simpl. now rewrite Nat.sub_0_r. Qed.

(** With room left under the cap and distinct keys, the scan collects the
    keys of the rhyming entries, in order, until the cap is reached. *)
Lemma rhyme_loop_spec word rhyme_part max_results items :
  forall rhymes seen,
    (Z.of_nat (length rhymes) < max_results)%Z ->
    NoDup (map fst items) ->
    (forall k, In k (map fst items) -> ~ In k seen) ->
    rhyme_loop word rhyme_part max_results items rhymes seen =
    rhymes ++ firstn (Z.to_nat max_results - length rhymes)
                     (map fst (filter (rhymes_with word rhyme_part) items)).
Proof.
  induction items as [|[k prons] items IH]; intros rhymes seen Hroom Hnd Hseen.
  - simpl. now rewrite firstn_nil, app_nil_r.
  - cbn [rhyme_loop filter]. unfold rhymes_with at 1. cbn [fst snd].
    inversion Hnd as [|? ? Hk Hnd']; subst.
    assert (Hseen' : forall k', In k' (map fst items) -> ~ In k' seen)
      by (intros k' Hk'; apply Hseen; now right).
    destruct (str_eqb k (lower word)); cbn [negb andb]; [now apply IH|].
    destruct (some_pron_rhymes rhyme_part prons).
    + assert (Hmem : mem k seen = false).
      { destruct (mem k seen) eqn:E; [|reflexivity]. apply mem_In in E.
        exfalso. apply (Hseen k); [now left | exact E]. }
      rewrite Hmem. cbn [map fst].
      rewrite firstn_one_more by lia.
      destruct (Z.geb_spec (Z.of_nat (length (rhymes ++ [k]))) max_results)
        as [Hfull | Hfull]; rewrite length_app in Hfull; cbn [length] in Hfull.
      * replace (Z.to_nat max_results - length rhymes - 1)%nat with 0%nat by lia.
        reflexivity.
      * rewrite IH; auto.
        -- rewrite <- app_assoc, length_app. cbn [length app].
           now replace (Z.to_nat max_results - (length rhymes + 1))%nat
             with (Z.to_nat max_results - length rhymes - 1)%nat by lia.
        -- rewrite length_app. cbn [length]. lia.
        -- intros k' Hk' [<- | Hin]; [contradiction | now apply (Hseen' k')].
    + destruct (Z.geb_spec (Z.of_nat (length rhymes)) max_results); [lia|].
      now apply IH.
Qed.

(** [X7] With a cap of at least one, an index whose keys are distinct
    (every loaded index) and a word of Latin-1 text,
    [find_rhymes_by_phonemes] returns, in index order, the first
    [max_results] keys that differ from the lowercased word and have a
    pronunciation with the rhyme key of the given pronunciation; without a
    rhyme key it returns nothing. *)
Theorem find_rhymes_by_phonemes_spec (d : index) (word : str)
  (phonemes : pronunciation) (max_results : Z) :
  distinct (map fst d) = true ->
  (1 <= max_results)%Z ->
  latin1 word = true ->
  fst (find_rhymes_by_phonemes word phonemes max_results d) =
  Ret match get_rhyming_part_from_phonemes phonemes with
      | None => []
      | Some rhyme_part =>
          firstn (Z.to_nat max_results)
                 (map fst (filter (rhymes_with word rhyme_part) d))
      end.
Proof.
  intros Hd Hmax _. unfold find_rhymes_by_phonemes.
  pose proof (rhyme_key_nonempty phonemes) as Hne.
  destruct (get_rhyming_part_from_phonemes phonemes) as [[|t key]|];
    [congruence | | reflexivity].
  unfold bind, dict_items, ret. cbn [fst].
  rewrite rhyme_loop_spec.
  - cbn [length app]. now rewrite Nat.sub_0_r.
  - cbn [length]. lia.
  - now apply distinct_NoDup.
  - intros k _ [].
Qed.

Lemma find_rhymes_by_phonemes_spec_witness :
  distinct (map fst sample) = true
  /\ (1 <= 2)%Z
  /\ latin1 u"Hat" = true
  /\ fst (find_rhymes_by_phonemes u"Hat" [u"HH"; u"AE1"; u"T"] 2 sample) =
     Ret [u"cat"; u"bat"].
Proof.
  split; [reflexivity|]. split; [lia|]. split; [reflexivity|].
  exact (find_rhymes_by_phonemes_spec sample u"Hat" [u"HH"; u"AE1"; u"T"] 2
           eq_refl ltac:(lia) eq_refl).
Defined.

Lemma rhyme_loop_cap word rhyme_part max_results items :
  forall rhymes seen,
    (Z.of_nat (length rhymes) < max_results)%Z \/ rhymes = [] ->
    (Z.of_nat (length (rhyme_loop word rhyme_part max_results items rhymes seen))
     <= Z.max 1 max_results)%Z.
Proof.
  induction items as [|[k prons] items IH]; intros rhymes seen Hroom.
  - simpl. destruct Hroom as [H | ->]; simpl; lia.
  - cbn [rhyme_loop]. destruct (str_eqb k (lower word)); [now apply IH|].
    destruct (some_pron_rhymes rhyme_part prons && negb (mem k seen)) eqn:Hadd.
    + apply andb_true_iff in Hadd. destruct Hadd as [-> Hmem].
      apply negb_true_iff in Hmem. rewrite Hmem.
      destruct (Z.geb_spec (Z.of_nat (length (rhymes ++ [k]))) max_results)
        as [Hfull | Hfull].
      * rewrite length_app in *. cbn [length] in *.
        destruct Hroom as [H | ->]; cbn [length] in *; lia.
      * apply IH. now left.
    + assert (Hsame :
        (if some_pron_rhymes rhyme_part prons
         then if mem k seen then (rhymes, seen)
              else (rhymes ++ [k], k :: seen)
         else (rhymes, seen)) = (rhymes, seen)).
      { destruct (some_pron_rhymes rhyme_part prons); [|reflexivity].
        destruct (mem k seen); [reflexivity | discriminate]. }
      rewrite Hsame.
      destruct (Z.geb_spec (Z.of_nat (length rhymes)) max_results) as [Hfull | Hfull].
      * destruct Hroom as [H | ->]; cbn [length]; lia.
      * apply IH. now left.
Qed.

Lemma rhyme_loop_sound word rhyme_part max_results items w :
  forall rhymes seen,
    In w (rhyme_loop word rhyme_part max_results items rhymes seen) ->
    In w rhymes \/
    exists prons, In (w, prons) items /\ rhymes_with word rhyme_part (w, prons) = true.
Proof.
  induction items as [|[k prons] items IH]; intros rhymes seen Hin.
  - now left.
  - cbn [rhyme_loop] in Hin.
    assert (Hlater : forall r s,
               In w (rhyme_loop word rhyme_part max_results items r s) ->
               (In w r -> In w rhymes \/
                  exists prons0, In (w, prons0) ((k, prons) :: items) /\
                                 rhymes_with word rhyme_part (w, prons0) = true) ->
               In w rhymes \/
               exists prons0, In (w, prons0) ((k, prons) :: items) /\
                              rhymes_with word rhyme_part (w, prons0) = true).
    { intros r s Hr Hbase. destruct (IH r s Hr) as [H | (prons0 & H & Hw)];
        [auto|]. right. exists prons0. split; [now right | exact Hw]. }
    destruct (str_eqb k (lower word)) eqn:Hself; [apply (Hlater _ _ Hin); auto|].
    destruct (some_pron_rhymes rhyme_part prons) eqn:Hrh.
    + assert (Hk : In w (rhymes ++ [k]) ->
                   In w rhymes \/
                   exists prons0, In (w, prons0) ((k, prons) :: items) /\
                                  rhymes_with word rhyme_part (w, prons0) = true).
      { intros H. apply in_app_iff in H. destruct H as [H | [<- | []]]; [auto|].
        right. exists prons. split; [now left|].
        unfold rhymes_with. cbn [fst snd]. now rewrite Hself, Hrh. }
      destruct (mem k seen).
      * destruct (Z.of_nat (length rhymes) >=? max_results)%Z;
          [auto | apply (Hlater _ _ Hin); auto].
      * destruct (Z.of_nat (length (rhymes ++ [k])) >=? max_results)%Z;
          [auto | apply (Hlater _ _ Hin); auto].
    + destruct (Z.of_nat (length rhymes) >=? max_results)%Z;
        [auto | apply (Hlater _ _ Hin); auto].
Qed.

(** [X8] Whatever the cap, [find_rhymes_by_phonemes] and [find_rhymes]
    return at most [max(1, max_results)] words: the cap holds from one
    upwards, and below one a single word can still come back. *)
Theorem find_rhymes_cap (d : index) (word : str) (phonemes : pronunciation)
  (max_results : Z) :
  (exists r, fst (find_rhymes_by_phonemes word phonemes max_results d) = Ret r
             /\ (Z.of_nat (length r) <= Z.max 1 max_results)%Z)
  /\ (exists r, fst (find_rhymes word max_results d) = Ret r
                /\ (Z.of_nat (length r) <= Z.max 1 max_results)%Z).
Proof.
  assert (H : forall w p,
             exists r, fst (find_rhymes_by_phonemes w p max_results d) = Ret r
                       /\ (Z.of_nat (length r) <= Z.max 1 max_results)%Z).
  { intros w p. unfold find_rhymes_by_phonemes.
    destruct (get_rhyming_part_from_phonemes p) as [[|t key]|];
      try (exists []; split; [reflexivity | simpl; lia]).
    eexists. split; [reflexivity|]. apply rhyme_loop_cap. now right. }
  split; [apply H|].
  unfold find_rhymes, bind, dict_get.
  destruct (assoc (strip (lower word)) d) as [[|p ps]|];
    try (exists []; split; [reflexivity | simpl; lia]).
  apply H.
Qed.

(** [X9] For a queried word of Latin-1 text, every word [find_rhymes]
    returns is a key of the index other than the lowercased query, and one
    of its pronunciations has the rhyme key of the first pronunciation of
    the queried word. *)
Theorem find_rhymes_sound (d : index) (word : str) (max_results : Z)
  (r : list str) (w : str) :
  latin1 word = true ->
  fst (find_rhymes word max_results d) = Ret r ->
  In w r ->
  w <> lower word
  /\ exists first rest prons p rhyme_part,
      assoc (strip (lower word)) d = Some (first :: rest)
      /\ In (w, prons) d /\ In p prons
      /\ get_rhyming_part_from_phonemes first = Some rhyme_part
      /\ get_rhyming_part_from_phonemes p = Some rhyme_part.
Proof.
  intros _. unfold find_rhymes, bind, dict_get.
  destruct (assoc (strip (lower word)) d) as [[|first rest]|] eqn:E;
    try (intros [= <-] []).
  unfold find_rhymes_by_phonemes.
  destruct (get_rhyming_part_from_phonemes first) as [[|t key]|] eqn:Hkey;
    try (intros [= <-] []).
  unfold bind, dict_items, ret. cbn [fst]. intros [= <-] Hin.
  apply rhyme_loop_sound in Hin. destruct Hin as [[] | (prons & Hin & Hw)].
  unfold rhymes_with in Hw. cbn [fst snd] in Hw.
  apply andb_true_iff in Hw. destruct Hw as [Hself Hrh].
  apply negb_true_iff, str_eqb_neq in Hself.
  apply some_pron_rhymes_spec in Hrh. destruct Hrh as (p & Hp & Hpk).
  split; [exact Hself|].
  exists first, rest, prons, p, (t :: key). auto.
Qed.

Lemma find_rhymes_sound_witness :
  latin1 u"Dog" = true
  /\ fst (find_rhymes u"Dog" 10 (CMUDict (sample_file ++ [u"fog F AA1 G"])))
    = Ret [u"fog"]
  /\ In u"fog" [u"fog"]
  /\ u"fog" <> lower u"Dog"
  /\ exists first rest prons p rhyme_part,
      assoc (strip (lower u"Dog")) (CMUDict (sample_file ++ [u"fog F AA1 G"]))
        = Some (first :: rest)
      /\ In (u"fog", prons) (CMUDict (sample_file ++ [u"fog F AA1 G"]))
      /\ In p prons
      /\ get_rhyming_part_from_phonemes first = Some rhyme_part
      /\ get_rhyming_part_from_phonemes p = Some rhyme_part.
Proof.
  assert (Hin : In u"fog" [u"fog"]) by now left.
  split; [reflexivity|]. split; [reflexivity|]. split; [exact Hin|].
  exact (find_rhymes_sound (CMUDict (sample_file ++ [u"fog F AA1 G"])) u"Dog" 10
           [u"fog"] u"fog" eq_refl eq_refl Hin).
Defined.

(** ** The pattern scan *)

Lemma re_parse_plain pattern :
  plain_pattern pattern = true ->
  re_parse (replace_star pattern) = Some (map atom_of pattern).
Proof.
  unfold plain_pattern. induction pattern as [|c p IH]; [reflexivity|].
  cbn [forallb]. intros H. apply andb_true_iff in H. destruct H as [Hc Hp].
  specialize (IH Hp). cbn [replace_star map]. unfold atom_of at 1.
  destruct (N.eqb_spec c 0x2A) as [-> | Hstar].
  - cbn [re_parse N.eqb Pos.eqb]. now rewrite IH.
  - cbn [orb] in Hc. apply negb_true_iff in Hc. cbn [re_parse].
    destruct (N.eqb_spec c 0x2E) as [-> | _]; [discriminate Hc|].
    now rewrite Hc, IH.
Qed.

Lemma re_match_star regex w :
  re_match (DotStar :: regex) w =
  re_match regex w
  || match w with
     | x :: w' => negb (x =? 0x0A)%N && re_match (DotStar :: regex) w'
     | [] => false
     end.
Proof. now destruct w. Qed.

Lemma glob_match_star pattern w :
  glob_match (0x2A%N :: pattern) w =
  glob_match pattern w
  || match w with
     | _ :: w' => glob_match (0x2A%N :: pattern) w'
     | [] => false
     end.
Proof. now destruct w. Qed.

Lemma glob_match_literal c pattern w :
  c <> 0x2A%N ->
  glob_match (c :: pattern) w =
  match w with
  | x :: w' => char_eqb (lower_char x) (lower_char c) && glob_match pattern w'
  | [] => false
  end.
Proof.
  intros Hc. cbn [glob_match]. now destruct (N.eqb_spec c 0x2A).
Qed.

(** On text without a newline the compiled plain pattern accepts what the
    wildcard reading accepts. *)
Lemma re_match_glob pattern : forall w,
  no_newline w = true ->
  re_match (map atom_of pattern) w = glob_match pattern w.
Proof.
  unfold no_newline.
  induction pattern as [|c p IH]; intros w Hw.
  - destruct w as [|x [|y w]]; try reflexivity.
    simpl in Hw. rewrite andb_true_r in Hw. apply negb_true_iff in Hw.
    simpl. exact Hw.
  - cbn [map]. unfold atom_of at 1. destruct (N.eqb_spec c 0x2A) as [-> | Hstar].
    + induction w as [|x w IHw].
      * rewrite re_match_star, glob_match_star, IH by exact Hw. reflexivity.
      * rewrite re_match_star, glob_match_star, IH by exact Hw.
        cbn [forallb] in Hw. apply andb_true_iff in Hw. destruct Hw as [Hx Hw].
        now rewrite Hx, IHw.
    + rewrite glob_match_literal by exact Hstar. cbn [re_match].
      destruct w as [|x w]; [reflexivity|].
      cbn [forallb] in Hw. apply andb_true_iff in Hw. destruct Hw as [_ Hw].
      now rewrite IH.
Qed.

Lemma search_loop_spec regex max_results keys : forall matches,
  search_loop regex max_results keys matches =
  matches ++
  firstn (Z.to_nat (Z.max 1 (max_results - Z.of_nat (length matches))))
         (filter (re_match regex) keys).
Proof.
  induction keys as [|k keys IH]; intros matches.
  - simpl. now rewrite firstn_nil, app_nil_r.
  - cbn [search_loop filter]. destruct (re_match regex k); [|apply IH].
    rewrite firstn_one_more by lia.
    destruct (Z.geb_spec (Z.of_nat (length (matches ++ [k]))) max_results)
      as [Hfull | Hfull]; rewrite length_app in Hfull; cbn [length] in Hfull.
    + replace (Z.to_nat (Z.max 1 (max_results - Z.of_nat (length matches))) - 1)%nat
        with 0%nat by lia.
      reflexivity.
    + rewrite IH, <- app_assoc, length_app. cbn [length app].
      do 3 f_equal. lia.
Qed.

Lemma search_by_pattern_plain (d : index) pattern max_results :
  plain_pattern pattern = true ->
  forallb no_newline (map fst d) = true ->
  fst (search_by_pattern pattern max_results d) =
  Ret (firstn (Z.to_nat (Z.max 1 max_results))
              (filter (glob_match pattern) (map fst d))).
Proof.
  intros Hp Hkeys. unfold search_by_pattern. rewrite (re_parse_plain _ Hp).
  unfold bind, dict_keys, ret. cbn [fst].
  rewrite search_loop_spec. cbn [length app]. rewrite Z.sub_0_r.
  do 2 f_equal. apply filter_ext_in. intros k Hk. apply re_match_glob.
  rewrite forallb_forall in Hkeys. now apply Hkeys.
Qed.

(** [X10] For a pattern of Latin-1 text whose only special character is
    [*], over keys of Latin-1 text that hold no newline (the keys of every
    index loaded from a dictionary file), [search_by_pattern] returns the
    keys the wildcard pattern accepts (case-insensitively, the whole key),
    in index order, cut after [max(1, max_results)] of them. *)
Theorem search_by_pattern_wildcard (d : index) (pattern : str) (max_results : Z) :
  plain_pattern pattern = true ->
  forallb no_newline (map fst d) = true ->
  latin1 pattern = true ->
  forallb latin1 (map fst d) = true ->
  fst (search_by_pattern pattern max_results d) =
  Ret (firstn (Z.to_nat (Z.max 1 max_results))
              (filter (glob_match pattern) (map fst d))).
Proof.
  intros Hp Hkeys _ _. unfold search_by_pattern. rewrite (re_parse_plain _ Hp).
  unfold bind, dict_keys, ret. cbn [fst].
  rewrite search_loop_spec. cbn [length app]. rewrite Z.sub_0_r.
  do 2 f_equal. apply filter_ext_in. intros k Hk. apply re_match_glob.
  rewrite forallb_forall in Hkeys. now apply Hkeys.
Qed.

Lemma search_by_pattern_wildcard_witness :
  plain_pattern u"*A*" = true
  /\ forallb no_newline (map fst sample) = true
  /\ latin1 u"*A*" = true
  /\ forallb latin1 (map fst sample) = true
  /\ fst (search_by_pattern u"*A*" 3 sample) = Ret [u"cat"; u"bat"; u"hat"].
Proof.
  split; [reflexivity|]. split; [reflexivity|].
  split; [reflexivity|]. split; [reflexivity|].
  exact (search_by_pattern_wildcard sample u"*A*" 3 eq_refl eq_refl eq_refl eq_refl).
Defined.

Lemma normal_key_no_newline k : normal_key k = true -> no_newline k = true.
Proof.
  unfold normal_key, no_newline. intros H. apply forallb_forall. intros c Hc.
  rewrite forallb_forall in H. specialize (H c Hc). unfold normal_char in H.
  apply andb_true_iff in H. destruct H as [_ H]. apply negb_true_iff in H.
  destruct (N.eqb_spec c 0x0A) as [-> | _]; [discriminate H | reflexivity].
Qed.

Lemma CMUDict_keys_no_newline f :
  forallb no_newline (map fst (CMUDict f)) = true.
Proof.
  apply forallb_forall. intros k Hk.
  apply normal_key_no_newline, (CMUDict_keys_normal f k Hk).
Qed.

Lemma glob_match_all w : glob_match [0x2A%N] w = true.
Proof.
  induction w as [|x w IH]; [reflexivity|].
  rewrite glob_match_star, IH. apply orb_true_r.
Qed.

Lemma filter_all {A} (f : A -> bool) (l : list A) :
  (forall x, f x = true) -> filter f l = l.
Proof.
  intros H. induction l as [|x l IH]; simpl; [reflexivity|]. now rewrite H, IH.
Qed.

(** [X11] On a loaded index the bare pattern [*] returns the first
    [max(1, max_results)] keys of the index, in index order: all of them
    when the index has no more. *)
Theorem search_by_pattern_star (f : list str) (max_results : Z) :
  fst (search_by_pattern [0x2A%N] max_results (CMUDict f)) =
    Ret (firstn (Z.to_nat (Z.max 1 max_results)) (map fst (CMUDict f)))
  /\ forall r,
      fst (search_by_pattern [0x2A%N] max_results (CMUDict f)) = Ret r ->
      length r = Nat.min (Z.to_nat (Z.max 1 max_results)) (length (CMUDict f)).
Proof.
  assert (H : fst (search_by_pattern [0x2A%N] max_results (CMUDict f)) =
              Ret (firstn (Z.to_nat (Z.max 1 max_results)) (map fst (CMUDict f)))).
  { rewrite search_by_pattern_plain;
      [| reflexivity | apply CMUDict_keys_no_newline].
    now rewrite (filter_all _ _ glob_match_all). }
  split; [exact H|]. intros r Hr. rewrite H in Hr. injection Hr as <-.
  now rewrite length_firstn, length_map.
Qed.

Lemma search_by_pattern_star_witness :
  fst (search_by_pattern [0x2A%N] 3 (CMUDict sample_file)) = Ret [u"cat"; u"bat"; u"hat"]
  /\ length [u"cat"; u"bat"; u"hat"] =
     Nat.min (Z.to_nat (Z.max 1 3)) (length (CMUDict sample_file)).
Proof.
  split; [reflexivity|].
  exact (proj2 (search_by_pattern_star sample_file 3) [u"cat"; u"bat"; u"hat"] eq_refl).
Defined.

(** A pattern without any special character accepts the words equal to it
    up to letter case. *)
Lemma glob_match_word pattern : forall w,
  forallb (fun c => negb (re_special c)) pattern = true ->
  glob_match pattern w = str_eqb (lower w) (lower pattern).
Proof.
  induction pattern as [|c p IH]; intros w Hp.
  - now destruct w.
  - cbn [forallb] in Hp. apply andb_true_iff in Hp. destruct Hp as [Hc Hp].
    assert (Hstar : c <> 0x2A%N) by (intros ->; discriminate Hc).
    rewrite glob_match_literal by exact Hstar.
    destruct w as [|x w]; [reflexivity|].
    cbn [lower map str_eqb]. fold (lower w) (lower p). now rewrite IH.
Qed.

Lemma firstn_one_filter_eq x keys :
  firstn 1 (filter (fun k => str_eqb k x) keys) = if mem x keys then [x] else [].
Proof.
  induction keys as [|k keys IH]; [reflexivity|].
  cbn [filter mem existsb]. fold (mem x keys).
  destruct (str_eqb k x) eqn:E.
  - apply str_eqb_eq in E. subst k. now rewrite str_eqb_refl.
  - assert (E' : str_eqb x k = false).
    { apply str_eqb_neq. apply str_eqb_neq in E. congruence. }
    now rewrite E'.
Qed.

Lemma mem_keys_assoc k (d : index) :
  mem k (map fst d) = match assoc k d with Some _ => true | None => false end.
Proof.
  destruct (assoc k d) eqn:E.
  - apply mem_In. destruct (in_dec (list_eq_dec N.eq_dec) k (map fst d)) as [H|H];
      [exact H|]. apply assoc_None_keys in H. congruence.
  - apply assoc_None_keys in E. destruct (mem k (map fst d)) eqn:Hm; [|reflexivity].
    apply mem_In in Hm. contradiction.
Qed.

(** [X12] On an index loaded from a file of Latin-1 lines, searching for a
    word of Latin-1 text written without special characters, with a cap of
    one, finds the lowercased word exactly when [word_exists] says the word
    exists, and nothing otherwise. *)
Theorem search_by_pattern_exact (f : list str) (word : str) :
  forallb latin1 f = true ->
  latin1 word = true ->
  forallb (fun c => negb (re_special c)) word = true ->
  exists found,
    fst (word_exists word (CMUDict f)) = Ret found
    /\ fst (search_by_pattern word 1 (CMUDict f)) =
       Ret (if found then [lower word] else []).
Proof.
  intros _ _ Hw. eexists. split; [reflexivity|].
  rewrite search_by_pattern_plain; [| | apply CMUDict_keys_no_newline].
  - f_equal. cbn [dict_contains fst word_exists].
    rewrite <- mem_keys_assoc, <- firstn_one_filter_eq.
    change (Z.to_nat (Z.max 1 1)) with 1%nat. f_equal.
    apply filter_ext_in. intros k Hk. rewrite glob_match_word by exact Hw.
    now rewrite (normal_key_lower k (CMUDict_keys_normal f k Hk)).
  - unfold plain_pattern. apply forallb_forall. intros c Hc.
    rewrite forallb_forall in Hw. rewrite (Hw c Hc). apply orb_true_r.
Qed.

Lemma search_by_pattern_exact_witness :
  forallb latin1 sample_file = true
  /\ latin1 u"DOG" = true
  /\ forallb (fun c => negb (re_special c)) u"DOG" = true
  /\ exists found,
      fst (word_exists u"DOG" (CMUDict sample_file)) = Ret found
      /\ fst (search_by_pattern u"DOG" 1 (CMUDict sample_file)) =
         Ret (if found then [lower u"DOG"] else []).
Proof.
  split; [reflexivity|]. split; [reflexivity|]. split; [reflexivity|].
  exact (search_by_pattern_exact sample_file u"DOG" eq_refl eq_refl eq_refl).
Defined.

(** ** Normalizing the queried word *)

Lemma lower_idempotent w : lower (lower w) = lower w.
Proof.
  unfold lower. rewrite map_map. apply map_ext. apply lower_char_idempotent.
Qed.

Lemma lower_lstrip w : lower (lstrip w) = lstrip (lower w).
Proof.
  induction w as [|c w IH]; [reflexivity|].
  cbn [lstrip lower map]. rewrite isspace_lower_char.
  destruct (isspace c); [exact IH | reflexivity].
Qed.

Lemma lower_rstrip w : lower (rstrip w) = rstrip (lower w).
Proof.
  induction w as [|c w IH]; [reflexivity|].
  cbn [rstrip lower map]. fold (lower w). rewrite <- IH, isspace_lower_char.
  destruct (rstrip w) as [|x r]; [now destruct (isspace c) | reflexivity].
Qed.

Lemma lower_strip w : lower (strip w) = strip (lower w).
Proof. unfold strip. now rewrite lower_rstrip, lower_lstrip. Qed.

Lemma rstrip_idempotent w : rstrip (rstrip w) = rstrip w.
Proof.
  induction w as [|c w IH]; [reflexivity|].
  cbn [rstrip]. destruct (rstrip w) as [|x r] eqn:E.
  - destruct (isspace c) eqn:Hc; [reflexivity|]. cbn [rstrip]. now rewrite Hc.
  - change (rstrip (c :: x :: r))
      with (match rstrip (x :: r) with
            | [] => if isspace c then [] else [c]
            | y :: r' => c :: y :: r'
            end).
    now rewrite IH.
Qed.

Lemma lstrip_rstrip_lstrip w : lstrip (rstrip (lstrip w)) = rstrip (lstrip w).
Proof.
  induction w as [|c w IH]; [reflexivity|].
  cbn [lstrip]. destruct (isspace c) eqn:Hc; [exact IH|].
  cbn [rstrip]. destruct (rstrip w); rewrite ?Hc; cbn [lstrip]; now rewrite Hc.
Qed.

Lemma strip_idempotent w : strip (strip w) = strip w.
Proof.
  unfold strip. now rewrite lstrip_rstrip_lstrip, rstrip_idempotent.
Qed.

Lemma normalize_idempotent w :
  strip (lower (strip (lower w))) = strip (lower w).
Proof. now rewrite lower_strip, lower_idempotent, strip_idempotent. Qed.

(** [X13] [lookup], [count_syllables], [get_stress_pattern],
    [get_rhyming_part] and [get_phonemes_readable] answer for a word in any
    letter case and with whitespace around it what they answer for its
    lowercase-trimmed form. *)
Theorem queries_normalize (d : index) (word : str) :
  lookup word d = lookup (strip (lower word)) d
  /\ count_syllables word d = count_syllables (strip (lower word)) d
  /\ get_stress_pattern word d = get_stress_pattern (strip (lower word)) d
  /\ get_rhyming_part word d = get_rhyming_part (strip (lower word)) d
  /\ get_phonemes_readable word d = get_phonemes_readable (strip (lower word)) d.
Proof.
  unfold lookup, count_syllables, get_stress_pattern, get_rhyming_part,
    get_phonemes_readable.
  rewrite !normalize_idempotent. repeat split.
Qed.

Example queries_normalize_cat :
  fst (lookup u"  CaT " sample) = fst (lookup u"cat" sample).
Proof. reflexivity. Qed.

(** ** The records of [lookup] *)

Lemma find_rhymes_by_phonemes_eval word phonemes max_results d :
  find_rhymes_by_phonemes word phonemes max_results d =
  (Ret (rhymes_of d word phonemes max_results), d).
Proof.
  unfold find_rhymes_by_phonemes, rhymes_of.
  now destruct (get_rhyming_part_from_phonemes phonemes) as [[|t key]|].
Qed.

Lemma lookup_loop_eval word prons : forall results d,
  lookup_loop word prons results d =
  (Ret (results ++ map (record_of d word) prons), d).
Proof.
  induction prons as [|p prons IH]; intros results d.
  - simpl. now rewrite app_nil_r.
  - cbn [lookup_loop]. unfold bind. rewrite find_rhymes_by_phonemes_eval.
    rewrite IH, <- app_assoc. reflexivity.
Qed.

Lemma lookup_eval word d :
  lookup word d =
  (Ret match assoc (strip (lower word)) d with
       | None | Some [] => None
       | Some (p :: ps) => Some (map (record_of d (strip (lower word))) (p :: ps))
       end, d).
Proof.
  unfold lookup, bind, dict_get.
  destruct (assoc (strip (lower word)) d) as [[|p ps]|]; try reflexivity.
  now rewrite lookup_loop_eval.
Qed.

Lemma rhymes_of_excludes d word phonemes max_results :
  ~ In (lower word) (rhymes_of d word phonemes max_results).
Proof.
  unfold rhymes_of.
  destruct (get_rhyming_part_from_phonemes phonemes) as [[|t key]|];
    try (intros []).
  intros H. apply rhyme_loop_sound in H. destruct H as [[] | (prons & _ & H)].
  unfold rhymes_with in H. cbn [fst] in H. now rewrite str_eqb_refl in H.
Qed.

Lemma rhymes_of_cap d word phonemes max_results :
  (Z.of_nat (length (rhymes_of d word phonemes max_results))
   <= Z.max 1 max_results)%Z.
Proof.
  unfold rhymes_of.
  destruct (get_rhyming_part_from_phonemes phonemes) as [[|t key]|];
    try (simpl; lia).
  apply rhyme_loop_cap. now right.
Qed.

(** [X14] For a word of Latin-1 text, [lookup] does not raise.  It is
    absent exactly when [count_syllables] is; otherwise it holds one record
    per stored pronunciation, in stored order, with the tokens joined by
    single spaces, their alphabet translation and their syllable count; its
    first record agrees with [count_syllables] and [get_phonemes_readable];
    and no record lists more than ten rhymes or the normalized word
    itself. *)
Theorem lookup_records (d : index) (word : str) :
  latin1 word = true ->
  exists res,
    fst (lookup word d) = Ret res
    /\ (res = None <-> fst (count_syllables word d) = Ret None)
    /\ forall records,
        res = Some records ->
        exists prons,
          assoc (strip (lower word)) d = Some prons
          /\ map arpa records = map (join u" ") prons
          /\ map ipa records = map arpa_to_ipa prons
          /\ map syllables records = map count_syllables_in_pronunciation prons
          /\ fst (count_syllables word d) =
               Ret (option_map syllables (hd_error records))
          /\ fst (get_phonemes_readable word d) =
               Ret (option_map arpa (hd_error records))
          /\ forall r, In r records ->
               ~ In (strip (lower word)) (rhymes r)
               /\ (length (rhymes r) <= 10)%nat.
Proof.
  intros _. eexists. rewrite lookup_eval. split; [reflexivity|].
  unfold count_syllables, get_phonemes_readable, bind, dict_get.
  destruct (assoc (strip (lower word)) d) as [[|p ps]|] eqn:E.
  - split; [tauto | discriminate].
  - split; [split; discriminate|]. intros records [= <-].
    exists (p :: ps). split; [reflexivity|].
    change (record_of d (strip (lower word)) p
            :: map (record_of d (strip (lower word))) ps)
      with (map (record_of d (strip (lower word))) (p :: ps)).
    rewrite !map_map.
    split; [reflexivity|]. split; [reflexivity|]. split; [reflexivity|].
    split; [reflexivity|]. split; [reflexivity|].
    intros r Hr. apply in_map_iff in Hr. destruct Hr as (q & <- & _).
    cbn [rhymes record_of]. split.
    + pose proof (rhymes_of_excludes d (strip (lower word)) q 10) as H.
      now rewrite lower_strip, lower_idempotent in H.
    + pose proof (rhymes_of_cap d (strip (lower word)) q 10). lia.
  - split; [tauto | discriminate].
Qed.

Lemma lookup_records_witness :
  latin1 u" READ" = true
  /\ exists res,
    fst (lookup u" READ" sample) = Ret res
    /\ (res = None <-> fst (count_syllables u" READ" sample) = Ret None)
    /\ forall records,
        res = Some records ->
        exists prons,
          assoc (strip (lower u" READ")) sample = Some prons
          /\ map arpa records = map (join u" ") prons
          /\ map ipa records = map arpa_to_ipa prons
          /\ map syllables records = map count_syllables_in_pronunciation prons
          /\ fst (count_syllables u" READ" sample) =
               Ret (option_map syllables (hd_error records))
          /\ fst (get_phonemes_readable u" READ" sample) =
               Ret (option_map arpa (hd_error records))
          /\ forall r, In r records ->
               ~ In (strip (lower u" READ")) (rhymes r)
               /\ (length (rhymes r) <= 10)%nat.
Proof.
  split; [reflexivity|]. exact (lookup_records sample u" READ" eq_refl).
Defined.

(** ** The phoneme type table *)

Lemma table_get_dict_set_same k v table default :
  table_get (dict_set k v table) k default = v.
Proof.
  induction table as [|[k0 v0] table IH]; simpl.
  - now rewrite str_eqb_refl.
  - destruct (str_eqb k0 k) eqn:E; simpl; now rewrite E.
Qed.

Lemma table_get_dict_set_other k k' v table default :
  k' <> k -> table_get (dict_set k v table) k' default = table_get table k' default.
Proof.
  intros Hne. induction table as [|[k0 v0] table IH]; simpl.
  - now rewrite (proj2 (str_eqb_neq k k')) by congruence.
  - destruct (str_eqb k0 k) eqn:E; simpl.
    + apply str_eqb_eq in E. subst k0.
      now rewrite (proj2 (str_eqb_neq k k')) by congruence.
    + now rewrite IH.
Qed.

Lemma dict_set_keys k v table :
  map fst (dict_set k v table) =
  if mem k (map fst table) then map fst table else map fst table ++ [k].
Proof.
  induction table as [|[k0 v0] table IH]; [reflexivity|].
  cbn [dict_set map fst mem existsb]. fold (mem k (map fst table)).
  destruct (str_eqb k0 k) eqn:E.
  - apply str_eqb_eq in E. subst k0. now rewrite str_eqb_refl.
  - assert (E' : str_eqb k k0 = false).
    { apply str_eqb_neq. apply str_eqb_neq in E. congruence. }
    rewrite E'. cbn [map fst orb]. rewrite IH.
    now destruct (mem k (map fst table)).
Qed.

Lemma dict_set_Forall (P : str * str -> Prop) k v table :
  P (k, v) -> Forall P table -> Forall P (dict_set k v table).
Proof.
  intros Hkv. induction 1 as [|[k0 v0] table H0 Ht IH]; simpl.
  - now repeat constructor.
  - destruct (str_eqb k0 k) eqn:E.
    + apply str_eqb_eq in E. subst k0. now constructor.
    + now constructor.
Qed.

Lemma dict_set_NoDup k v table :
  NoDup (map fst table) -> NoDup (map fst (dict_set k v table)).
Proof.
  intros Hnd. rewrite dict_set_keys. destruct (mem k (map fst table)) eqn:E;
    [exact Hnd|].
  apply NoDup_app; [exact Hnd | repeat constructor; intros [] |].
  intros y Hy [<- | []]. apply mem_In in Hy. congruence.
Qed.

Lemma phoneme_types_loop_cons line rest table :
  phoneme_types_loop (line :: rest) table =
  phoneme_types_loop rest
    match parse_type_line line with
    | Some (phoneme, ptype) => dict_set phoneme ptype table
    | None => table
    end.
Proof.
  cbn [phoneme_types_loop]. unfold parse_type_line.
  destruct (strip line) as [|c s]; [reflexivity|].
  now destruct (split_on 0x09 (c :: s)) as [|a [|b [|x l]]].
Qed.

Lemma find_rev_last k e (es : list (str * str)) :
  find (fun e => str_eqb (fst e) k) (rev (e :: es)) =
  match find (fun e => str_eqb (fst e) k) (rev es) with
  | Some e' => Some e'
  | None => if str_eqb (fst e) k then Some e else None
  end.
Proof.
  cbn [rev]. induction (rev es) as [|x l IH]; simpl.
  - now destruct (str_eqb (fst e) k).
  - now destruct (str_eqb (fst x) k).
Qed.

Lemma phoneme_types_loop_get f : forall table k default,
  table_get (phoneme_types_loop f table) k default =
  match last_type k (type_entries f) with
  | Some v => v
  | None => table_get table k default
  end.
Proof.
  unfold last_type.
  induction f as [|line f IH]; intros table k default; [reflexivity|].
  rewrite phoneme_types_loop_cons, IH. cbn [type_entries].
  destruct (parse_type_line line) as [[a b]|]; [|reflexivity].
  rewrite find_rev_last.
  destruct (find _ (rev (type_entries f))) as [e|]; [reflexivity|].
  cbn [fst option_map]. destruct (str_eqb a k) eqn:E.
  - apply str_eqb_eq in E. subst a. apply table_get_dict_set_same.
  - apply str_eqb_neq in E. apply table_get_dict_set_other. congruence.
Qed.

(** Splitting at a separator and joining with it gives the text back, and
    no field holds the separator. *)
Lemma join_cons sep (x y : str) (l : list str) :
  join sep (x :: y :: l) = x ++ sep ++ join sep (y :: l).
Proof. reflexivity. Qed.

Lemma split_on_join sep w :
  join [sep] (split_on sep w) = w
  /\ Forall (fun fld => ~ In sep fld) (split_on sep w)
  /\ split_on sep w <> [].
Proof.
  induction w as [|c w (IHj & IHf & IHne)]; cbn [split_on].
  - repeat split; [repeat constructor; intros [] | discriminate].
  - unfold char_eqb. destruct (N.eqb_spec c sep) as [-> | Hne].
    + repeat split; [| constructor; [intros [] | exact IHf] | discriminate].
      destruct (split_on sep w) as [|x l]; [congruence|].
      rewrite join_cons, IHj. reflexivity.
    + destruct (split_on sep w) as [|x l]; [congruence|].
      inversion IHf as [|? ? Hx Hl]; subst.
      repeat split; [| constructor; [|exact Hl] | discriminate].
      * now destruct l.
      * intros [E | H]; [congruence | now apply Hx].
Qed.

Lemma lstrip_head w :
  head_fails (fun c => isspace c = true) (lstrip w).
Proof.
  induction w as [|c w IH]; [exact I|]. cbn [lstrip].
  destruct (isspace c) eqn:E; [exact IH | simpl; congruence].
Qed.

Lemma rstrip_head w :
  head_fails (fun c => isspace c = true) w ->
  head_fails (fun c => isspace c = true) (rstrip w).
Proof.
  destruct w as [|c w]; [auto|]. cbn [rstrip head_fails]. intros Hc.
  destruct (rstrip w); [|exact Hc].
  destruct (isspace c) eqn:E; [congruence | simpl; congruence].
Qed.

Lemma rstrip_last w : forall r c, rstrip w = r ++ [c] -> isspace c = false.
Proof.
  induction w as [|x w IH]; intros r c; [now destruct r|].
  cbn [rstrip]. destruct (rstrip w) as [|y r'] eqn:E.
  - destruct (isspace x) eqn:Hx; [now destruct r|].
    destruct r as [|z r]; [now intros [= <-] | now destruct r].
  - destruct r as [|z r]; [discriminate|].
    cbn [app]. intros [= <- H]. now apply (IH r c).
Qed.

Lemma parse_type_line_some line phoneme ptype :
  parse_type_line line = Some (phoneme, ptype) ->
  phoneme <> [] /\ ptype <> [] /\ ~ In 0x09%N phoneme /\ ~ In 0x09%N ptype
  /\ strip line = phoneme ++ 0x09%N :: ptype.
Proof.
  unfold parse_type_line.
  pose proof (rstrip_head _ (lstrip_head line)) as Hhead.
  pose proof (rstrip_last (lstrip line)) as Hlast.
  fold (strip line) in Hhead, Hlast.
  destruct (split_on_join 0x09%N (strip line)) as (Hj & Hf & _).
  destruct (strip line) as [|c s] eqn:Hs; [discriminate|].
  destruct (split_on 0x09 (c :: s)) as [|a [|b [|x l]]]; try discriminate.
  intros [= <- <-]. cbn [join app] in Hj.
  inversion Hf as [|? ? Ha Hf']; subst. inversion Hf' as [|? ? Hb _]; subst.
  repeat split; auto.
  - intros ->. cbn [app] in Hj. injection Hj as <- _. simpl in Hhead.
    now apply Hhead.
  - intros ->. specialize (Hlast a 0x09%N (eq_sym Hj)). discriminate Hlast.
Qed.

Lemma phoneme_types_loop_invariant (P : str * str -> Prop) f :
  (forall line k v, parse_type_line line = Some (k, v) -> P (k, v)) ->
  forall table,
    NoDup (map fst table) -> Forall P table ->
    NoDup (map fst (phoneme_types_loop f table))
    /\ Forall P (phoneme_types_loop f table).
Proof.
  intros Hparse. induction f as [|line f IH]; intros table Hnd HP; [now split|].
  rewrite phoneme_types_loop_cons.
  destruct (parse_type_line line) as [[k v]|] eqn:E; [|now apply IH].
  apply IH; [now apply dict_set_NoDup|].
  apply dict_set_Forall; [now apply (Hparse line) | exact HP].
Qed.

(** [X15] The table [load_phoneme_types] builds.  A line counts when, once
    trimmed, it is not empty and holds exactly one tab; the symbol before
    the tab and the type after it are then both non-empty and free of
    tabs.  The table has one entry per symbol, and looking a symbol up
    gives the type of the last line that counts for it, or the default
    when no line does. *)
Theorem load_phoneme_types_spec (f : list str) :
  NoDup (map fst (load_phoneme_types f))
  /\ (forall k default,
        table_get (load_phoneme_types f) k default =
        match last_type k (type_entries f) with
        | Some v => v
        | None => default
        end)
  /\ (forall k v,
        In (k, v) (load_phoneme_types f) ->
        k <> [] /\ v <> [] /\ ~ In 0x09%N k /\ ~ In 0x09%N v).
Proof.
  unfold load_phoneme_types.
  destruct (phoneme_types_loop_invariant
              (fun e => fst e <> [] /\ snd e <> [] /\
                        ~ In 0x09%N (fst e) /\ ~ In 0x09%N (snd e)) f)
    with (table := @nil (str * str)) as [Hnd HP].
  - intros line k v E.
    destruct (parse_type_line_some line k v E) as (H1 & H2 & H3 & H4 & _).
    now repeat split.
  - constructor.
  - constructor.
  - split; [exact Hnd|]. split.
    + intros k default. now rewrite phoneme_types_loop_get.
    + intros k v Hin. rewrite Forall_forall in HP. exact (HP (k, v) Hin).
Qed.

Lemma load_phoneme_types_spec_witness :
  In (u"B", u"plosive") (load_phoneme_types sample_phones)
  /\ u"B" <> [] /\ u"plosive" <> []
  /\ ~ In 0x09%N u"B" /\ ~ In 0x09%N u"plosive".
Proof.
  assert (H : In (u"B", u"plosive") (load_phoneme_types sample_phones)).
  { vm_compute. tauto. }
  split; [exact H|].
  exact (proj2 (proj2 (load_phoneme_types_spec sample_phones)) u"B" u"plosive" H).
Defined.

Example load_phoneme_types_sample :
  load_phoneme_types sample_phones = [(u"AA", u"vowel"); (u"B", u"plosive")]
  /\ table_get (load_phoneme_types sample_phones) u"ZZ" u"unknown" = u"unknown".
Proof. vm_compute. split; reflexivity. Qed.

(** ** Translation and stress digits *)

Lemma re_sub_digits_idempotent t : re_sub_digits (re_sub_digits t) = re_sub_digits t.
Proof.
  induction t as [|c t IH]; [reflexivity|]. cbn [re_sub_digits].
  destruct (isdigit c) eqn:E; [exact IH|]. cbn [re_sub_digits].
  now rewrite E, IH.
Qed.

Lemma ipa_loop_digits phonemes : forall acc,
  ipa_loop (map re_sub_digits phonemes) acc = ipa_loop phonemes acc.
Proof.
  induction phonemes as [|p ps IH]; intros acc; [reflexivity|].
  cbn [map ipa_loop]. now rewrite re_sub_digits_idempotent, IH.
Qed.

(** [X16] The alphabet translation does not look at digits: a
    pronunciation and the same pronunciation with every digit removed from
    its tokens translate alike, so two pronunciations that differ in stress
    only have the same translation. *)
Theorem arpa_to_ipa_ignores_stress (p q : pronunciation) :
  arpa_to_ipa (map re_sub_digits p) = arpa_to_ipa p
  /\ (map re_sub_digits p = map re_sub_digits q -> arpa_to_ipa p = arpa_to_ipa q).
Proof.
  assert (H : forall x, arpa_to_ipa (map re_sub_digits x) = arpa_to_ipa x).
  { intros x. unfold arpa_to_ipa. now rewrite ipa_loop_digits. }
  split; [apply H|]. intros E. now rewrite <- (H p), <- (H q), E.
Qed.

Lemma arpa_to_ipa_ignores_stress_witness :
  map re_sub_digits [u"R"; u"EH1"; u"K"; u"ER0"; u"D"]
    = map re_sub_digits [u"R"; u"EH0"; u"K"; u"ER1"; u"D"]
  /\ arpa_to_ipa [u"R"; u"EH1"; u"K"; u"ER0"; u"D"]
     = arpa_to_ipa [u"R"; u"EH0"; u"K"; u"ER1"; u"D"].
Proof.
  split; [reflexivity|].
  exact (proj2 (arpa_to_ipa_ignores_stress
                  [u"R"; u"EH1"; u"K"; u"ER0"; u"D"]
                  [u"R"; u"EH0"; u"K"; u"ER1"; u"D"]) eq_refl).
Defined.

(** ** The stress pattern and the syllable count *)

Lemma last_of_solid t : ends_in_stress_digit t = true -> solid (last_of t).
Proof.
  destruct t as [|c t]; [discriminate|]. cbn [ends_in_stress_digit last_of].
  intros H. split; [discriminate|]. constructor; [|constructor].
  apply is_stress_digit_spec in H.
  destruct H as [-> | [-> | ->]]; reflexivity.
Qed.

Lemma filter_length_le {A} (f g : A -> bool) (l : list A) :
  (forall x, f x = true -> g x = true) ->
  (length (filter f l) <= length (filter g l))%nat.
Proof.
  intros H. induction l as [|x l IH]; simpl; [lia|].
  destruct (f x) eqn:E.
  - rewrite (H x E). simpl. lia.
  - destruct (g x); simpl; lia.
Qed.

(** [X17] On a well-formed index the stress pattern of a word reads back,
    split on whitespace, as one-character strings, each a digit 0, 1 or 2,
    and there are at most as many of them as [count_syllables] counts
    syllables. *)
Theorem get_stress_pattern_digits (d : index) (word : str) (pattern : str) :
  index_ok d = true ->
  fst (get_stress_pattern word d) = Ret (Some pattern) ->
  Forall (fun s => exists c, s = [c] /\ is_stress_digit c = true) (split pattern)
  /\ exists n,
      fst (count_syllables word d) = Ret (Some n)
      /\ (Z.of_nat (length (split pattern)) <= n)%Z.
Proof.
  intros Hd. unfold count_syllables, bind, dict_get.
  destruct (assoc (strip (lower word)) d) as [v|] eqn:E.
  - destruct (index_ok_first d _ v Hd E) as (first & rest & -> & Hne).
    rewrite (get_stress_pattern_eval d word first rest E Hne).
    cbn [fst]. intros [= <-].
    assert (Hsolid : Forall solid (map last_of (filter ends_in_stress_digit first))).
    { apply Forall_map, Forall_forall. intros t Ht. apply filter_In in Ht.
      now apply last_of_solid. }
    pose proof (split_join _ Hsolid) as Hsplit.
    change [0x20%N] with (u" ") in Hsplit. rewrite Hsplit. split.
    + apply Forall_map, Forall_forall. intros t Ht. apply filter_In in Ht.
      destruct Ht as [_ Ht]. destruct t as [|c t]; [discriminate|].
      now exists (last t c).
    + eexists. split; [reflexivity|].
      rewrite count_syllables_in_pronunciation_count, length_map.
      apply inj_le, filter_length_le, ends_in_stress_digit_stressed.
  - unfold get_stress_pattern, bind, dict_get. rewrite E. discriminate.
Qed.

Lemma get_stress_pattern_digits_witness :
  index_ok (CMUDict [u"banana B AH0 N AE1 N AH0"]) = true
  /\ fst (get_stress_pattern u"Banana" (CMUDict [u"banana B AH0 N AE1 N AH0"]))
     = Ret (Some u"0 1 0")
  /\ Forall (fun s => exists c, s = [c] /\ is_stress_digit c = true) (split u"0 1 0")
  /\ exists n,
      fst (count_syllables u"Banana" (CMUDict [u"banana B AH0 N AE1 N AH0"]))
        = Ret (Some n)
      /\ (Z.of_nat (length (split u"0 1 0")) <= n)%Z.
Proof.
  split; [reflexivity|]. split; [reflexivity|].
  exact (get_stress_pattern_digits (CMUDict [u"banana B AH0 N AE1 N AH0"])
           u"Banana" u"0 1 0" eq_refl eq_refl).
Defined.

(** ** [word_exists] and [lookup] *)

(** [X18] On a well-formed index, for a word typed without whitespace
    around it, [word_exists] says yes exactly when [lookup] has records. *)
Theorem word_exists_agrees_with_lookup (d : index) (word : str) :
  index_ok d = true ->
  strip (lower word) = lower word ->
  fst (word_exists word d) =
  Ret match fst (lookup word d) with
      | Ret (Some _) => true
      | _ => false
      end.
Proof.
  intros Hd Hw. rewrite lookup_eval. unfold word_exists, dict_contains.
  cbn [fst]. rewrite Hw.
  destruct (assoc (lower word) d) as [v|] eqn:E; [|reflexivity].
  now destruct (index_ok_first d _ v Hd E) as (first & rest & -> & _).
Qed.

Lemma word_exists_agrees_with_lookup_witness :
  index_ok sample = true
  /\ strip (lower u"HAT") = lower u"HAT"
  /\ fst (word_exists u"HAT" sample) =
     Ret match fst (lookup u"HAT" sample) with
         | Ret (Some _) => true
         | _ => false
         end.
Proof.
  split; [reflexivity|]. split; [reflexivity|].
  exact (word_exists_agrees_with_lookup sample u"HAT" eq_refl eq_refl).
Defined.

(** ** What the loader does not look at *)

Lemma parse_line_tokens line :
  parse_line line =
  match line_tokens line with
  | w :: p :: ps => Some (re_sub_variant (lower w), p :: ps)
  | _ => None
  end.
Proof.
  unfold parse_line, line_tokens.
  rewrite <- (split_strip (nth 0 (split_on 0x23 line) [])).
  destruct (strip (nth 0 (split_on 0x23 line) [])) as [|c s]; [reflexivity|].
  now destruct (split (c :: s)) as [|w [|p ps]].
Qed.

Lemma load_lines_app f1 : forall f2 d,
  snd (load_lines (f1 ++ f2) d) = snd (load_lines f2 (snd (load_lines f1 d))).
Proof.
  induction f1 as [|line f1 IH]; intros f2 d; [reflexivity|].
  cbn [app]. now rewrite !load_lines_cons, IH.
Qed.

(** [X19] The index depends on a line only through the tokens before its
    comment: two lines with the same tokens can stand for one another, and
    a line with fewer than two tokens (blank, comment only, a word without
    phonemes) can be dropped, wherever it stands in the file. *)
Theorem CMUDict_ignores_noise (f1 f2 : list str) (l1 l2 : str) :
  (line_tokens l1 = line_tokens l2 ->
   CMUDict (f1 ++ l1 :: f2) = CMUDict (f1 ++ l2 :: f2))
  /\ ((length (line_tokens l1) < 2)%nat ->
      CMUDict (f1 ++ l1 :: f2) = CMUDict (f1 ++ f2)).
Proof.
  unfold CMUDict, load_dictionary. rewrite !load_lines_app, !load_lines_cons.
  rewrite !process_line_parse, !parse_line_tokens. split.
  - now intros ->.
  - intros Hlen. destruct (line_tokens l1) as [|w [|p ps]]; try reflexivity.
    simpl in Hlen. lia.
Qed.

Lemma CMUDict_ignores_noise_witness :
  line_tokens u"cat   K AE1  T # feline" = line_tokens u"cat K AE1 T"
  /\ CMUDict ([u"bat B AE1 T"] ++ u"cat   K AE1  T # feline" :: [u"dog D AA1 G"])
     = CMUDict ([u"bat B AE1 T"] ++ u"cat K AE1 T" :: [u"dog D AA1 G"]).
Proof.
  split; [reflexivity|].
  exact (proj1 (CMUDict_ignores_noise [u"bat B AE1 T"] [u"dog D AA1 G"]
                  u"cat   K AE1  T # feline" u"cat K AE1 T") eq_refl).
Defined.

(** ** Variant lines *)

(** [X20] A line whose first token, lowercased, is a word followed by one
    variant marker is stored under the word without the marker, whatever
    the number in the marker: the variants of a word share its key. *)
Theorem variant_lines_share_key (line w p : str) (ps : list str) (base m : str) :
  line_tokens line = w :: p :: ps ->
  variant_marker m ->
  lower w = base ++ m ->
  parse_line line = Some (base, p :: ps)
  /\ forall d, appended d base (p :: ps) (snd (process_line line d)).
Proof.
  intros Htok Hm Hw.
  assert (Hkey : re_sub_variant (lower w) = base).
  { pose proof (tokenizes_solid _ _ (split_tokenizes (nth 0 (split_on 0x23 line) [])))
      as Hsolid.
    fold (line_tokens line) in Hsolid. rewrite Htok in Hsolid.
    inversion Hsolid as [|? ? Hsw _]; subst.
    pose proof (re_sub_variant_spec (lower w) (solid_lower_no_newline w Hsw)) as Hspec.
    apply (without_marker_unique (lower w)); [exact Hspec|].
    left. now exists m. }
  assert (Hparse : parse_line line = Some (base, p :: ps))
    by now rewrite parse_line_tokens, Htok, Hkey.
  split; [exact Hparse|]. intros d.
  rewrite process_line_parse, Hparse. apply getitem_append_appended.
Qed.

Lemma variant_lines_share_key_witness :
  line_tokens u"Read(2) R IY1 D" = [u"Read(2)"; u"R"; u"IY1"; u"D"]
  /\ variant_marker u"(2)"
  /\ lower u"Read(2)" = u"read" ++ u"(2)"
  /\ parse_line u"Read(2) R IY1 D" = Some (u"read", [u"R"; u"IY1"; u"D"])
  /\ forall d, appended d u"read" [u"R"; u"IY1"; u"D"]
                 (snd (process_line u"Read(2) R IY1 D" d)).
Proof.
  assert (Hm : variant_marker u"(2)").
  { exists u"2". repeat split; [discriminate | now repeat constructor]. }
  split; [reflexivity|]. split; [exact Hm|]. split; [reflexivity|].
  exact (variant_lines_share_key u"Read(2) R IY1 D" u"Read(2)" u"R"
           [u"IY1"; u"D"] u"read" u"(2)" eq_refl Hm eq_refl).
Defined.

(** ** Rhymes below the cap *)

Lemma firstn_short {A} (n : nat) (l : list A) :
  (length (firstn n l) < n)%nat -> firstn n l = l.
Proof.
  intros H. rewrite length_firstn in H. apply firstn_all2. lia.
Qed.

(** [X21] When [find_rhymes] on a loaded index, with a cap of at least one,
    returns fewer words than the cap allows, it has missed none: every key
    other than the lowercased query with a pronunciation whose rhyme key is
    that of the first pronunciation of the queried word is returned. *)
Theorem find_rhymes_complete (f : list str) (word : str) (max_results : Z)
  (first : pronunciation) (rest : list pronunciation) (rhyme_part : pronunciation)
  (r : list str) :
  (1 <= max_results)%Z ->
  assoc (strip (lower word)) (CMUDict f) = Some (first :: rest) ->
  get_rhyming_part_from_phonemes first = Some rhyme_part ->
  fst (find_rhymes word max_results (CMUDict f)) = Ret r ->
  (Z.of_nat (length r) < max_results)%Z ->
  forall w prons p,
    In (w, prons) (CMUDict f) -> w <> lower word -> In p prons ->
    get_rhyming_part_from_phonemes p = Some rhyme_part ->
    In w r.
Proof.
  intros Hmax E Hkey Hr Hlen w prons p Hin Hw Hp Hpk.
  unfold find_rhymes, bind, dict_get in Hr. rewrite E in Hr.
  unfold find_rhymes_by_phonemes in Hr. rewrite Hkey in Hr.
  pose proof (rhyme_key_nonempty first) as Hne. rewrite Hkey in Hne.
  destruct rhyme_part as [|t key]; [congruence|].
  unfold bind, dict_items, ret in Hr. cbn [fst] in Hr.
  rewrite rhyme_loop_spec in Hr;
    [| cbn [length]; lia | apply CMUDict_keys_NoDup | intros k _ []].
  cbn [length app] in Hr. rewrite Nat.sub_0_r in Hr. injection Hr as <-.
  rewrite firstn_short by lia.
  apply in_map_iff. exists (w, prons). split; [reflexivity|].
  apply filter_In. split; [exact Hin|].
  unfold rhymes_with. cbn [fst snd]. apply andb_true_iff. split.
  - apply negb_true_iff, str_eqb_neq, Hw.
  - apply some_pron_rhymes_spec. now exists p.
Qed.

Lemma find_rhymes_complete_witness :
  (1 <= 10)%Z
  /\ assoc (strip (lower u"Cat")) (CMUDict sample_file) = Some [[u"K"; u"AE1"; u"T"]]
  /\ get_rhyming_part_from_phonemes [u"K"; u"AE1"; u"T"] = Some [u"AE1"; u"T"]
  /\ fst (find_rhymes u"Cat" 10 (CMUDict sample_file)) = Ret [u"bat"; u"hat"]
  /\ (Z.of_nat (length [u"bat"; u"hat"]) < 10)%Z
  /\ In (u"hat", [[u"HH"; u"AE1"; u"T"]]) (CMUDict sample_file)
  /\ u"hat" <> lower u"Cat"
  /\ In [u"HH"; u"AE1"; u"T"] [[u"HH"; u"AE1"; u"T"]]
  /\ get_rhyming_part_from_phonemes [u"HH"; u"AE1"; u"T"] = Some [u"AE1"; u"T"]
  /\ In u"hat" [u"bat"; u"hat"].
Proof.
  assert (H1 : (1 <= 10)%Z) by lia.
  assert (H2 : (Z.of_nat (length [u"bat"; u"hat"]) < 10)%Z) by (simpl; lia).
  assert (H3 : In (u"hat", [[u"HH"; u"AE1"; u"T"]]) (CMUDict sample_file)).
  { vm_compute. tauto. }
  assert (H4 : u"hat" <> lower u"Cat") by discriminate.
  assert (H5 : In [u"HH"; u"AE1"; u"T"] [[u"HH"; u"AE1"; u"T"]]) by now left.
  repeat (split; [first [reflexivity | assumption]|]).
  exact (find_rhymes_complete sample_file u"Cat" 10 [u"K"; u"AE1"; u"T"] []
           [u"AE1"; u"T"] [u"bat"; u"hat"] H1 eq_refl eq_refl eq_refl H2
           u"hat" [[u"HH"; u"AE1"; u"T"]] [u"HH"; u"AE1"; u"T"] H3 H4 H5 eq_refl).
Defined.
